(** * The Aqua runtime: channels, scheduler and garbage collector

    A shallow embedding of [src/runtime/runtime.cpp] and [runtime.hpp]:
    - [Channel]: the queue of Values with its blocking [send] and [receive];
    - [Scheduler]: the ready queue, the running and waiting vectors and the
      worker pool;
    - [GarbageCollector]: the registry of tracked objects, the running total
      and the mark-and-sweep pass.

    Every member function that takes the object's mutex for its whole body is
    one atomic transition of the object's state.  A call that parks its thread
    on a condition variable is an outcome of its own ([Waits]); a call that
    locks a [std::mutex] its own thread already owns never returns
    ([Hangs]). *)

From stdpp Require Import gmap list strings.
From Stdlib Require Import ZArith Lia.

Local Open Scope Z_scope.

(** ** Values *)

(** [ValueType]: the variant behind [Value].  A double is kept as its 64-bit
    pattern, a [shared_ptr<Channel>] as the identity of the channel. *)
Inductive Value : Type :=
  | VNull
  | VBool (b : bool)
  | VInt (i : Z)
  | VFloat (bits : Z)
  | VString (s : string)
  | VChannel (handle : nat).

Definition type_name (v : Value) : string :=
  match v with
  | VNull => "null"
  | VBool _ => "bool"
  | VInt _ => "int"
  | VFloat _ => "float"
  | VString _ => "string"
  | VChannel _ => "channel"
  end.

(** ** Channel *)

Module Chan.

(** The data members of [class Channel]; [max_size] is a [size_t].  The mutex
    is held through the body of every member, so it is not a field here. *)
Record Channel : Type := mkChannel {
  buffer : list Value;
  max_size : N;
  closed : bool
}.

(** The two condition variables a caller can be parked on. *)
Inductive CondVar : Type := not_empty | not_full.

(** How a call on a channel ends: it returns [a] leaving the channel in state
    [c], or its thread sleeps in [cv.wait] with the channel untouched. *)
Inductive outcome (A : Type) : Type :=
  | Returns (a : A) (c : Channel)
  | Waits (cv : CondVar).
Arguments Returns {A} a c.
Arguments Waits {A} cv.

(** [Channel::Channel(buffer_size)], reached through [make_channel]. *)
Definition make_channel (buffer_size : N) : Channel :=
  {| buffer := []; max_size := buffer_size; closed := false |}.

Definition size (c : Channel) : N := N.of_nat (length (buffer c)).
Definition capacity (c : Channel) : N := max_size c.
Definition is_closed (c : Channel) : bool := closed c.

Definition is_empty (c : Channel) : bool :=
  match buffer c with [] => true | _ :: _ => false end.

Definition is_full (c : Channel) : bool :=
  if (max_size c =? 0)%N then false
  else (max_size c <=? size c)%N.

(** [buffer.push(value)] *)
Definition push (value : Value) (c : Channel) : Channel :=
  {| buffer := buffer c ++ [value]; max_size := max_size c; closed := closed c |}.

(** [buffer.pop()] *)
Definition pop (c : Channel) : Channel :=
  {| buffer := tail (buffer c); max_size := max_size c; closed := closed c |}.

(** The part of [send] from [not_full.wait(lock, pred)] on: the predicate is
    tested first, and again at every wake-up, on the state found then. *)
Definition send_after_wait (value : Value) (c : Channel) : outcome bool :=
  if (size c <? max_size c)%N || closed c then
    if closed c then Returns false c
    else Returns true (push value c)
  else Waits not_full.

Definition send (value : Value) (c : Channel) : outcome bool :=
  if closed c then Returns false c
  else if (0 <? max_size c)%N && (max_size c <=? size c)%N then
    send_after_wait value c
  else Returns true (push value c).

(** [receive] starts with [not_empty.wait(lock, pred)], so a wake-up resumes
    it at its first line. *)
Definition receive (c : Channel) : outcome (option Value) :=
  if negb (is_empty c) || closed c then
    if is_empty c && closed c then Returns None c
    else match buffer c with
         | value :: _ => Returns (Some value) (pop c)
         | [] => Returns None c (* not reached: the buffer is non-empty *)
         end
  else Waits not_empty.

Definition close (c : Channel) : Channel :=
  {| buffer := buffer c; max_size := max_size c; closed := true |}.

(** *** Runs of a channel *)

(** The calls threads make on one channel, in the order the mutex grants
    them.  A parked call changes nothing; when it is woken it meets the state
    of that moment, which is the call issued again at that point. *)
Inductive op : Type :=
  | Send (value : Value)
  | Receive
  | Close.

Inductive event : Type :=
  | Sent (value : Value) (ok : bool)
  | Received (result : option Value)
  | Closed
  | Parked (o : op) (cv : CondVar).

Definition step (o : op) (c : Channel) : event * Channel :=
  match o with
  | Send value =>
      match send value c with
      | Returns ok c' => (Sent value ok, c')
      | Waits cv => (Parked o cv, c)
      end
  | Receive =>
      match receive c with
      | Returns result c' => (Received result, c')
      | Waits cv => (Parked o cv, c)
      end
  | Close => (Closed, close c)
  end.

Fixpoint run (ops : list op) (c : Channel) : list event * Channel :=
  match ops with
  | [] => ([], c)
  | o :: rest =>
      let '(e, c') := step o c in
      let '(es, c'') := run rest c' in
      (e :: es, c'')
  end.

(** The Values handed to successful sends, and those handed out by receives. *)
Fixpoint sent (es : list event) : list Value :=
  match es with
  | [] => []
  | Sent value true :: rest => value :: sent rest
  | _ :: rest => sent rest
  end.

Fixpoint received (es : list event) : list Value :=
  match es with
  | [] => []
  | Received (Some value) :: rest => value :: received rest
  | _ :: rest => received rest
  end.

(** [n] sends that all return true, one after the other. *)
Fixpoint sends (values : list Value) (c : Channel) : option Channel :=
  match values with
  | [] => Some c
  | value :: rest =>
      match send value c with
      | Returns true c' => sends rest c'
      | _ => None
      end
  end.

(** [n] receives, one after the other, none of which parks. *)
Fixpoint receives (n : nat) (c : Channel) : option (list (option Value) * Channel) :=
  match n with
  | O => Some ([], c)
  | S n' =>
      match receive c with
      | Returns result c' =>
          match receives n' c' with
          | Some (results, c'') => Some (result :: results, c'')
          | None => None
          end
      | Waits _ => None
      end
  end.

End Chan.

(** ** Fiber and Scheduler *)

Module Sched.

(** [Fiber::State] *)
Inductive State : Type := READY | RUNNING | WAITING | FINISHED | ERROR.

#[global] Instance State_eq_dec : EqDecision State.
Proof. solve_decision. Defined.

(** What the [std::function<void()>] of a fiber does to the scheduler while
    it runs: the calls of [spawn] it makes, in order, each with the work of
    the fiber it spawns. *)
#[warnings="-register-all"] Inductive Work : Type := Spawns (children : list Work).

Definition children_of (w : Work) : list Work :=
  match w with Spawns children => children end.

Record Fiber : Type := mkFiber {
  id : nat;
  state : State;
  function : Work
}.

Definition set_state (st : State) (f : Fiber) : Fiber :=
  {| id := id f; state := st; function := function f |}.

(** The members of [Fiber] that move its state. *)
Definition yield (f : Fiber) : Fiber :=
  if decide (state f = RUNNING) then set_state READY f else f.
Definition resume (f : Fiber) : Fiber :=
  if decide (state f = READY) then set_state RUNNING f else f.
Definition wait (f : Fiber) : Fiber :=
  if decide (state f = RUNNING) then set_state WAITING f else f.
Definition finish (f : Fiber) : Fiber := set_state FINISHED f.
Definition is_finished (f : Fiber) : bool :=
  bool_decide (state f = FINISHED) || bool_decide (state f = ERROR).

(** A [std::thread] of the worker vector. *)
Record thread : Type := mkThread {
  tid : nat;
  joinable : bool
}.

(** The scheduler with the objects around it that its members touch.  A
    [shared_ptr<Fiber>] is the id of the Fiber it points to, and [fibers] holds
    the Fiber objects; [next_id] is the static [Fiber::next_id]; [joined] lists
    the threads [join] has waited for, oldest first; [next_tid] numbers the
    threads started. *)
Record Scheduler : Type := mkScheduler {
  workers : list thread;
  workers_capacity : nat;
  ready_queue : list nat;
  running_fibers : list nat;
  waiting_fibers : list nat;
  running : bool;
  fibers : gmap nat Fiber;
  next_id : nat;
  joined : list nat;
  next_tid : nat
}.

(** [Scheduler::Scheduler(num_threads)], in a process that has made no Fiber
    and no thread yet. *)
Definition new_Scheduler (num_threads : nat) : Scheduler :=
  {| workers := []; workers_capacity := num_threads;
     ready_queue := []; running_fibers := []; waiting_fibers := [];
     running := false; fibers := ∅; next_id := 1;
     joined := []; next_tid := 0 |}.

(** [workers.emplace_back(&Scheduler::worker_loop, this)] *)
Definition emplace_worker (s : Scheduler) : Scheduler :=
  {| workers := workers s ++ [{| tid := next_tid s; joinable := true |}];
     workers_capacity := workers_capacity s;
     ready_queue := ready_queue s; running_fibers := running_fibers s;
     waiting_fibers := waiting_fibers s; running := running s;
     fibers := fibers s; next_id := next_id s;
     joined := joined s; next_tid := S (next_tid s) |}.

Definition set_running (b : bool) (s : Scheduler) : Scheduler :=
  {| workers := workers s; workers_capacity := workers_capacity s;
     ready_queue := ready_queue s; running_fibers := running_fibers s;
     waiting_fibers := waiting_fibers s; running := b;
     fibers := fibers s; next_id := next_id s;
     joined := joined s; next_tid := next_tid s |}.

Definition start (s : Scheduler) : Scheduler :=
  if running s then s
  else Nat.iter (workers_capacity s) emplace_worker (set_running true s).

(** The loop of [stop]: [if (worker.joinable()) worker.join();] *)
Definition join_worker (log : list nat) (worker : thread) : list nat :=
  if joinable worker then log ++ [tid worker] else log.

Definition stop (s : Scheduler) : Scheduler :=
  if negb (running s) then s
  else
    {| workers := [];
       workers_capacity := workers_capacity s;
       ready_queue := ready_queue s; running_fibers := running_fibers s;
       waiting_fibers := waiting_fibers s; running := false;
       fibers := fibers s; next_id := next_id s;
       joined := foldl join_worker (joined s) (workers s);
       next_tid := next_tid s |}.

(** [spawn]: [make_shared<Fiber>(func)] runs the constructor of Fiber, which
    takes [next_id++] and starts READY; the pointer goes to the back of the
    ready queue. *)
Definition spawn (func : Work) (s : Scheduler) : Scheduler :=
  let fiber := {| id := next_id s; state := READY; function := func |} in
  {| workers := workers s; workers_capacity := workers_capacity s;
     ready_queue := ready_queue s ++ [id fiber];
     running_fibers := running_fibers s;
     waiting_fibers := waiting_fibers s; running := running s;
     fibers := <[id fiber := fiber]> (fibers s); next_id := S (next_id s);
     joined := joined s; next_tid := next_tid s |}.

Definition get_state (fid : nat) (s : Scheduler) : option State :=
  state <$> fibers s !! fid.

Definition update_fiber (fid : nat) (g : Fiber → Fiber) (s : Scheduler) : Scheduler :=
  {| workers := workers s; workers_capacity := workers_capacity s;
     ready_queue := ready_queue s; running_fibers := running_fibers s;
     waiting_fibers := waiting_fibers s; running := running s;
     fibers := alter g fid (fibers s); next_id := next_id s;
     joined := joined s; next_tid := next_tid s |}.

(** [get_next_fiber]: the front of the ready queue, moved to the running
    vector when its state is READY; [None] is the null pointer. *)
Definition get_next_fiber (s : Scheduler) : option nat * Scheduler :=
  match ready_queue s with
  | [] => (None, s)
  | fiber :: rest =>
      (Some fiber,
       {| workers := workers s; workers_capacity := workers_capacity s;
          ready_queue := rest;
          running_fibers :=
            if decide (get_state fiber s = Some READY)
            then running_fibers s ++ [fiber] else running_fibers s;
          waiting_fibers := waiting_fibers s; running := running s;
          fibers := fibers s; next_id := next_id s;
          joined := joined s; next_tid := next_tid s |})
  end.

(** [Fiber::start] on the fiber [fid]: RUNNING, the function, FINISHED. *)
Definition start_fiber (fid : nat) (s : Scheduler) : Scheduler :=
  match fibers s !! fid with
  | Some f =>
      if decide (state f = READY) then
        let s1 := update_fiber fid (set_state RUNNING) s in
        let s2 := foldl (λ acc child, spawn child acc) s1 (children_of (function f)) in
        update_fiber fid (set_state FINISHED) s2
      else s
  | None => s
  end.

(** One turn of the loop of [worker_loop] that finds [running] true; with an
    empty ready queue the worker sleeps on [worker_condition] for 10 ms and
    the state is as before. *)
Definition worker_turn (s : Scheduler) : Scheduler :=
  match get_next_fiber s with
  | (Some fiber, s') =>
      if decide (get_state fiber s' = Some READY) then start_fiber fiber s'
      else s'
  | (None, s') => s'
  end.

Definition active_fibers (s : Scheduler) : nat := length (running_fibers s).

(** The test [wait_all] polls every millisecond; it returns at the first poll
    that finds it true. *)
Definition wait_all_done (s : Scheduler) : bool :=
  bool_decide (ready_queue s = []) && bool_decide (running_fibers s = [])
  && bool_decide (waiting_fibers s = []).

End Sched.

(** ** GarbageCollector *)

Module GC.

(** [size_t] arithmetic: 64 bits, wrapping. *)
Definition wrap (z : Z) : Z := z mod 2 ^ 64.

(** [struct ObjectInfo]; a [void*] is its address. *)
Record ObjectInfo : Type := mkObjectInfo {
  ptr : Z;
  size : Z;
  marked : bool
}.

Definition set_marked (b : bool) (info : ObjectInfo) : ObjectInfo :=
  {| ptr := ptr info; size := size info; marked := b |}.

(** The data members of [class GarbageCollector].  [gc_mutex] is true while
    the calling thread owns the mutex. *)
Record GarbageCollector : Type := mkGC {
  objects : gmap Z ObjectInfo;
  memory_threshold : Z;
  total_allocated : Z;
  gc_mutex : bool
}.

(** How a call ends: it returns, it throws, or it never returns. *)
Inductive outcome (A : Type) : Type :=
  | Returns (a : A) (gc : GarbageCollector)
  | Throws
  | Hangs.
Arguments Returns {A} a gc.
Arguments Throws {A}.
Arguments Hangs {A}.

Definition new_GarbageCollector : GarbageCollector :=
  {| objects := ∅; memory_threshold := 1024 * 1024; total_allocated := 0;
     gc_mutex := false |}.

Definition set_mutex (b : bool) (gc : GarbageCollector) : GarbageCollector :=
  {| objects := objects gc; memory_threshold := memory_threshold gc;
     total_allocated := total_allocated gc; gc_mutex := b |}.

(** [std::lock_guard<std::mutex> lock(gc_mutex);] around a body.  [gc_mutex]
    is a plain [std::mutex]: locking it from the thread that owns it is
    undefined, and with the pthread mutex behind it the thread blocks for
    ever.  Otherwise the body runs with the mutex held and the guard releases
    it on the way out. *)
Definition lock_guard {A : Type} (body : GarbageCollector → outcome A)
    (gc : GarbageCollector) : outcome A :=
  if gc_mutex gc then Hangs
  else match body (set_mutex true gc) with
       | Returns a gc' => Returns a (set_mutex false gc')
       | Throws => Throws
       | Hangs => Hangs
       end.

(** The first loop of [mark_and_sweep]. *)
Definition reset_marks (gc : GarbageCollector) : GarbageCollector :=
  {| objects := set_marked false <$> objects gc;
     memory_threshold := memory_threshold gc;
     total_allocated := total_allocated gc; gc_mutex := gc_mutex gc |}.

Definition mark_reachable_objects (gc : GarbageCollector) : GarbageCollector :=
  {| objects := set_marked true <$> objects gc;
     memory_threshold := memory_threshold gc;
     total_allocated := total_allocated gc; gc_mutex := gc_mutex gc |}.

(** The body of the loop of [sweep_unreachable_objects] at one entry. *)
Definition sweep_entry (p : Z) (info : ObjectInfo) (gc : GarbageCollector)
    : GarbageCollector :=
  if negb (marked info) then
    {| objects := delete p (objects gc);
       memory_threshold := memory_threshold gc;
       total_allocated := wrap (total_allocated gc - size info);
       gc_mutex := gc_mutex gc |}
  else gc.

Definition sweep_unreachable_objects (gc : GarbageCollector) : GarbageCollector :=
  map_fold sweep_entry gc (objects gc).

Definition mark_and_sweep (gc : GarbageCollector) : GarbageCollector :=
  sweep_unreachable_objects (mark_reachable_objects (reset_marks gc)).

Definition collect : GarbageCollector → outcome unit :=
  lock_guard (λ gc, Returns tt (mark_and_sweep gc)).

Definition register_object (p : Z) (sz : Z) : GarbageCollector → outcome unit :=
  lock_guard (λ gc,
    let gc1 :=
      {| objects := <[p := {| ptr := p; size := sz; marked := false |}]> (objects gc);
         memory_threshold := memory_threshold gc;
         total_allocated := wrap (total_allocated gc + sz);
         gc_mutex := gc_mutex gc |} in
    if total_allocated gc1 >? memory_threshold gc1 then collect gc1
    else Returns tt gc1).

Definition unregister_object (p : Z) : GarbageCollector → outcome unit :=
  lock_guard (λ gc,
    match objects gc !! p with
    | Some info =>
        Returns tt
          {| objects := delete p (objects gc);
             memory_threshold := memory_threshold gc;
             total_allocated := wrap (total_allocated gc - size info);
             gc_mutex := gc_mutex gc |}
    | None => Returns tt gc
    end).

Definition set_threshold (threshold : Z) (gc : GarbageCollector) : GarbageCollector :=
  {| objects := objects gc; memory_threshold := threshold;
     total_allocated := total_allocated gc; gc_mutex := gc_mutex gc |}.

Definition get_threshold (gc : GarbageCollector) : Z := memory_threshold gc.

(** The observers, read under the lock. *)
Definition allocated_objects (gc : GarbageCollector) : nat :=
  stdpp.base.size (objects gc).
Definition total_memory (gc : GarbageCollector) : Z := total_allocated gc.

(** The sum of the sizes of the objects of a registry. *)
Definition sum_sizes (m : gmap Z ObjectInfo) : Z :=
  map_fold (λ _ info acc, size info + acc) 0 m.

Definition registered_bytes (gc : GarbageCollector) : Z :=
  sum_sizes (objects gc).

(** The invariant of the registry: the running total is the sum of the sizes
    of the registered objects, in [size_t] arithmetic. *)
Definition tracked (gc : GarbageCollector) : Prop :=
  total_allocated gc = wrap (registered_bytes gc).

(** A collector with the default threshold and one object of 100 bytes at
    address 4096, as [register_object] leaves it. *)
Definition one_object : GarbageCollector :=
  {| objects := {[ 4096 := {| ptr := 4096; size := 100; marked := false |} ]};
     memory_threshold := 1024 * 1024; total_allocated := 100;
     gc_mutex := false |}.

(** A call made on the state the previous call returned. *)
Definition and_then {A B : Type} (o : outcome A)
    (k : GarbageCollector → outcome B) : outcome B :=
  match o with
  | Returns _ gc => k gc
  | Throws => Throws
  | Hangs => Hangs
  end.

(** A void function reports a misuse to its caller by throwing. *)
Definition reports_error {A : Type} (o : outcome A) : bool :=
  match o with Throws => true | _ => false end.

End GC.

(** ** Calls on one Fiber *)

Module FiberCalls.
Import Sched.

(** [Fiber::start] as the Fiber itself sees it: from READY it goes RUNNING,
    the function runs, and it ends FINISHED; the function holds no handle on
    the Fiber that runs it.  What the function does to the scheduler is in
    [Sched.start_fiber]. *)
Definition start (f : Fiber) : Fiber :=
  if decide (state f = READY) then set_state FINISHED (set_state RUNNING f)
  else f.

(** The members of [Fiber] that may move its state, as calls. *)
Inductive call : Type := Start | Yield | Resume | Wait | Finish.

Definition apply (c : call) (f : Fiber) : Fiber :=
  match c with
  | Start => start f
  | Yield => yield f
  | Resume => resume f
  | Wait => wait f
  | Finish => finish f
  end.

Definition calls (cs : list call) (f : Fiber) : Fiber :=
  foldl (λ acc c, apply c acc) f cs.

(** [Fiber::set_local] and [Fiber::get_local] on the table [locals]. *)
Definition set_local (key : string) (value : Value) (locals : gmap string Value)
    : gmap string Value :=
  <[key := value]> locals.

Definition get_local (key : string) (locals : gmap string Value) : option Value :=
  locals !! key.

(** A fiber's writes to its table, oldest first. *)
Definition set_locals (writes : list (string * Value)) (locals : gmap string Value)
    : gmap string Value :=
  foldl (λ acc w, set_local w.1 w.2 acc) locals writes.

End FiberCalls.

(** ** Runs of the scheduler *)

Module SchedRun.
Import Sched.

(** What happens to a scheduler: the public calls, and the turns of its
    worker threads, in the order [queue_mutex] grants them. *)
Inductive call : Type :=
  | Spawn (func : Work)
  | Turn
  | Start
  | Stop.

(** A turn needs a worker thread: the scheduler is running and its worker
    vector is not empty. *)
Definition turn (s : Scheduler) : Scheduler :=
  if running s then
    match workers s with
    | [] => s
    | _ :: _ => worker_turn s
    end
  else s.

Definition apply (c : call) (s : Scheduler) : Scheduler :=
  match c with
  | Spawn func => spawn func s
  | Turn => turn s
  | Start => start s
  | Stop => stop s
  end.

Definition exec (cs : list call) (s : Scheduler) : Scheduler :=
  foldl (λ acc c, apply c acc) s cs.

(** Where the fibers are, between two calls ([cur] is [None]) or while a
    worker runs the function of the fiber [cur]: the running vector followed
    by the ready queue lists the ids handed out so far, in order; the waiting
    vector is empty; the queued fibers are READY, the fiber being run is
    RUNNING and the other fibers of the running vector are FINISHED. *)
Definition placed (cur : option nat) (s : Scheduler) : Prop :=
  waiting_fibers s = []
  ∧ (1 ≤ next_id s)%nat
  ∧ running_fibers s ++ ready_queue s = seq 1 (next_id s - 1)
  ∧ (∀ fid, fid ∈ ready_queue s → get_state fid s = Some READY)
  ∧ (∀ fid, fid ∈ running_fibers s → Some fid ≠ cur →
            get_state fid s = Some FINISHED)
  ∧ (∀ fid, cur = Some fid →
            fid ∈ running_fibers s ∧ get_state fid s = Some RUNNING).

(** Where the threads are: the threads joined so far followed by the threads
    of the worker vector are the threads started so far, in order; every
    worker is joinable; a running scheduler has as many workers as the
    constructor reserved and a stopped one has none. *)
Definition pooled (s : Scheduler) : Prop :=
  joined s ++ (tid <$> workers s) = seq 0 (next_tid s)
  ∧ Forall (λ w, joinable w = true) (workers s)
  ∧ if running s then length (workers s) = workers_capacity s
    else workers s = [].

End SchedRun.

(** ** Uses of the collector *)

Module GCUse.
Import GC.

(** The collectors a program gets from a new one by calls that return, when
    it registers an identity only while that identity is not registered. *)
Inductive reach : GarbageCollector → Prop :=
  | reach_new : reach new_GarbageCollector
  | reach_register (gc gc' : GarbageCollector) (p sz : Z) :
      reach gc → 0 ≤ sz < 2 ^ 64 → objects gc !! p = None →
      register_object p sz gc = Returns tt gc' → reach gc'
  | reach_unregister (gc gc' : GarbageCollector) (p : Z) :
      reach gc → unregister_object p gc = Returns tt gc' → reach gc'
  | reach_collect (gc gc' : GarbageCollector) :
      reach gc → collect gc = Returns tt gc' → reach gc'
  | reach_set_threshold (gc : GarbageCollector) (threshold : Z) :
      reach gc → reach (set_threshold threshold gc).

End GCUse.

(** ** Runtime *)

Module Rt.

(** The data members of [class Runtime]; the two [unique_ptr]s are the
    objects they own. *)
Record Runtime : Type := mkRuntime {
  scheduler : Sched.Scheduler;
  gc : GC.GarbageCollector;
  globals : gmap string Value
}.

(** [Runtime::Runtime()]; the scheduler takes its default argument,
    [std::thread::hardware_concurrency()]. *)
Definition new_Runtime (hardware_concurrency : nat) : Runtime :=
  {| scheduler := Sched.new_Scheduler hardware_concurrency;
     gc := GC.new_GarbageCollector;
     globals := ∅ |}.

Definition with_scheduler (g : Sched.Scheduler → Sched.Scheduler) (rt : Runtime)
    : Runtime :=
  {| scheduler := g (scheduler rt); gc := gc rt; globals := globals rt |}.

Definition initialize : Runtime → Runtime := with_scheduler Sched.start.
Definition shutdown : Runtime → Runtime := with_scheduler Sched.stop.
Definition spawn_fiber (func : Sched.Work) : Runtime → Runtime :=
  with_scheduler (Sched.spawn func).

Definition make_channel (buffer_size : N) : Chan.Channel :=
  Chan.make_channel buffer_size.

Definition set_global (name : string) (value : Value) (rt : Runtime) : Runtime :=
  {| scheduler := scheduler rt; gc := gc rt;
     globals := <[name := value]> (globals rt) |}.

Definition get_global (name : string) (rt : Runtime) : option Value :=
  globals rt !! name.

(** A program's writes to the table of globals, oldest first. *)
Definition set_globals (writes : list (string * Value)) (rt : Runtime) : Runtime :=
  foldl (λ acc w, set_global w.1 w.2 acc) rt writes.

(** The value of the last write to [name] in a list of writes. *)
Fixpoint last_write (name : string) (writes : list (string * Value))
    : option Value :=
  match writes with
  | [] => None
  | (n, v) :: rest =>
      match last_write name rest with
      | Some v' => Some v'
      | None => if decide (n = name) then Some v else None
      end
  end.

End Rt.

(** * Properties of the channel *)

Section ChannelFacts.
Import Chan.

Example test_channel_roundtrip :
  let c := make_channel 2 in
  let m1 := VString "mensagem 1" in
  let m2 := VString "mensagem 2" in
  (sends [m1; m2] c ≫= receives 2) = Some ([Some m1; Some m2], c).
Proof. reflexivity. Qed.

Lemma is_empty_nil (c : Channel) : is_empty c = true ↔ buffer c = [].
Proof. unfold is_empty. destruct (buffer c); split; congruence. Qed.

(** A closed channel turns every send away, whatever it holds. *)
Lemma send_closed (value : Value) (c : Channel) :
  closed c = true → send value c = Returns false c.
Proof. intros H. unfold send. now rewrite H. Qed.

(** An open channel with room, or with [max_size] 0, takes the Value. *)
Lemma send_open (value : Value) (c : Channel) :
  closed c = false →
  (max_size c = 0 ∨ size c < max_size c)%N →
  send value c = Returns true (push value c).
Proof.
  intros Hopen Hroom. unfold send. rewrite Hopen.
  destruct Hroom as [H0 | Hlt].
  - rewrite H0. reflexivity.
  - replace (max_size c <=? size c)%N with false by (symmetry; apply N.leb_gt; lia).
    now rewrite andb_false_r.
Qed.

(** An open bounded channel that is full parks the sender. *)
Lemma send_full (value : Value) (c : Channel) :
  closed c = false → (0 < max_size c ≤ size c)%N →
  send value c = Waits not_full.
Proof.
  intros Hopen [Hpos Hfull]. unfold send, send_after_wait. rewrite Hopen.
  replace (0 <? max_size c)%N with true by (symmetry; apply N.ltb_lt; lia).
  replace (max_size c <=? size c)%N with true by (symmetry; apply N.leb_le; lia).
  replace (size c <? max_size c)%N with false by (symmetry; apply N.ltb_ge; lia).
  reflexivity.
Qed.

(** A sender woken inside [not_full.wait] goes on as a sender that calls
    [send] at that moment: the wait is only entered when [max_size] is
    positive. *)
Lemma send_after_wait_is_send (value : Value) (c : Channel) :
  (0 < max_size c)%N → send_after_wait value c = send value c.
Proof.
  intros Hpos. unfold send, send_after_wait.
  destruct (closed c) eqn:Hc.
  - now rewrite orb_true_r.
  - rewrite orb_false_r.
    replace (0 <? max_size c)%N with true by (symmetry; apply N.ltb_lt; lia).
    rewrite N.ltb_antisym. destruct (max_size c <=? size c)%N; reflexivity.
Qed.

Lemma send_inv (value : Value) (c c' : Channel) (ok : bool) :
  send value c = Returns ok c' →
  (ok = true ∧ closed c = false ∧ c' = push value c)
  ∨ (ok = false ∧ closed c = true ∧ c' = c).
Proof.
  unfold send, send_after_wait. destruct (closed c) eqn:Hc.
  - intros [= <- <-]. now right.
  - rewrite orb_false_r.
    destruct ((0 <? max_size c)%N && (max_size c <=? size c)%N).
    + destruct (size c <? max_size c)%N; [intros [= <- <-]; now left | discriminate].
    + intros [= <- <-]. now left.
Qed.

Lemma receive_nil (c : Channel) :
  buffer c = [] →
  receive c = if closed c then Returns None c else Waits not_empty.
Proof.
  intros H. unfold receive, is_empty. rewrite H. now destruct (closed c).
Qed.

Lemma receive_cons (c : Channel) (value : Value) (rest : list Value) :
  buffer c = value :: rest →
  receive c = Returns (Some value)
                {| buffer := rest; max_size := max_size c; closed := closed c |}.
Proof.
  intros H. unfold receive, is_empty, pop. rewrite H. reflexivity.
Qed.

Lemma step_max_size (o : op) (c : Channel) : max_size (step o c).2 = max_size c.
Proof.
  destruct o as [value| |]; simpl; [| |reflexivity].
  - destruct (send value c) as [ok c'|cv] eqn:Hs; [|reflexivity].
    apply send_inv in Hs as [(_ & _ & ->)|(_ & _ & ->)]; reflexivity.
  - destruct (buffer c) as [|v rest] eqn:Hb.
    + rewrite (receive_nil c Hb). now destruct (closed c).
    + now rewrite (receive_cons c v rest Hb).
Qed.

Lemma step_closed (o : op) (c : Channel) :
  closed c = true → closed (step o c).2 = true.
Proof.
  intros Hc. destruct o as [value| |]; simpl; [| |reflexivity].
  - now rewrite (send_closed value c Hc).
  - destruct (buffer c) as [|v rest] eqn:Hb.
    + rewrite (receive_nil c Hb), Hc. exact Hc.
    + now rewrite (receive_cons c v rest Hb).
Qed.

(** One call keeps the books: what was buffered or is sent by it is what is
    received by it or still buffered. *)
Lemma step_fifo (o : op) (c : Channel) :
  buffer c ++ sent [(step o c).1] = received [(step o c).1] ++ buffer (step o c).2.
Proof.
  destruct o as [value| |]; simpl.
  - destruct (send value c) as [ok c'|cv] eqn:Hs; simpl.
    + apply send_inv in Hs as [(-> & _ & ->)|(-> & _ & ->)]; simpl;
        [reflexivity | apply app_nil_r].
    + apply app_nil_r.
  - destruct (buffer c) as [|v rest] eqn:Hb.
    + rewrite (receive_nil c Hb). destruct (closed c); simpl; now rewrite Hb.
    + rewrite (receive_cons c v rest Hb). simpl. now rewrite app_nil_r.
  - apply app_nil_r.
Qed.

Lemma sent_cons (e : event) (es : list event) : sent (e :: es) = sent [e] ++ sent es.
Proof. destruct e as [v [|]| | |]; reflexivity. Qed.

Lemma received_cons (e : event) (es : list event) :
  received (e :: es) = received [e] ++ received es.
Proof. destruct e as [|[v|]| |]; reflexivity. Qed.

Lemma run_cons (o : op) (ops : list op) (c : Channel) :
  run (o :: ops) c = ((step o c).1 :: (run ops (step o c).2).1, (run ops (step o c).2).2).
Proof.
  simpl. destruct (step o c) as [e c']. simpl. now destruct (run ops c').
Qed.

(** FIFO over a whole run: the Values received are, in order, the Values
    buffered at the start followed by the Values sent, less those still in the
    buffer. *)
Lemma run_fifo (ops : list op) (c : Channel) :
  buffer c ++ sent (run ops c).1 = received (run ops c).1 ++ buffer (run ops c).2.
Proof.
  revert c. induction ops as [|o ops IH]; intros c.
  - simpl. apply app_nil_r.
  - rewrite run_cons. simpl fst. simpl snd.
    rewrite sent_cons, received_cons, app_assoc, step_fifo.
    rewrite <- !app_assoc. f_equal. apply IH.
Qed.

Lemma run_max_size (ops : list op) (c : Channel) :
  max_size (run ops c).2 = max_size c.
Proof.
  revert c. induction ops as [|o ops IH]; intros c; [reflexivity|].
  rewrite run_cons. simpl snd. now rewrite IH, step_max_size.
Qed.

Lemma run_closed (ops : list op) (c : Channel) :
  closed c = true → closed (run ops c).2 = true.
Proof.
  revert c. induction ops as [|o ops IH]; intros c Hc; [exact Hc|].
  rewrite run_cons. simpl snd. apply IH, step_closed, Hc.
Qed.

Lemma sends_inv (values : list Value) (c c' : Channel) :
  sends values c = Some c' →
  c' = {| buffer := buffer c ++ values; max_size := max_size c; closed := closed c |}.
Proof.
  revert c. induction values as [|value rest IH]; intros c; simpl.
  - intros [= <-]. rewrite app_nil_r. now destruct c.
  - destruct (send value c) as [[|] c1|cv] eqn:Hs; try discriminate.
    apply send_inv in Hs as [(_ & _ & ->)|(? & _)]; [|discriminate].
    intros H. apply IH in H. subst c'. simpl. now rewrite <- app_assoc.
Qed.

Lemma sends_open (values : list Value) (c : Channel) :
  closed c = false →
  (max_size c = 0 ∨ N.of_nat (length (buffer c) + length values) ≤ max_size c)%N →
  is_Some (sends values c).
Proof.
  revert c. induction values as [|value rest IH]; intros c Hopen Hroom; simpl.
  - eauto.
  - rewrite send_open; [apply IH; [exact Hopen|] | exact Hopen |].
    + simpl. rewrite length_app. simpl in *.
      destruct Hroom as [H0|Hle]; [now left | right; lia].
    + unfold size. simpl in Hroom.
      destruct Hroom as [H0|Hle]; [now left | right; lia].
Qed.

Lemma receives_take (n : nat) (c : Channel) :
  (n ≤ length (buffer c))%nat →
  receives n c =
    Some (Some <$> take n (buffer c),
          {| buffer := drop n (buffer c); max_size := max_size c; closed := closed c |}).
Proof.
  revert c. induction n as [|n IH]; intros c Hn; simpl.
  - rewrite drop_0. now destruct c.
  - destruct (buffer c) as [|v rest] eqn:Hb; [simpl in Hn; lia|].
    rewrite (receive_cons c v rest Hb), IH by (simpl in *; lia).
    reflexivity.
Qed.

(** C2. On a channel that holds nothing and has capacity at least n, n sends
    of v1..vn with no receive in between succeed while the channel is open,
    and whenever they all return true the next n receives return v1..vn in
    that order, leaving the channel as it was before the sends. *)
Theorem fifo_within_capacity (c : Channel) (values : list Value) :
  buffer c = [] →
  (N.of_nat (length values) ≤ capacity c)%N →
  (closed c = false → is_Some (sends values c))
  ∧ ∀ c', sends values c = Some c' →
          receives (length values) c' = Some (Some <$> values, c).
Proof.
  intros Hempty Hcap. split.
  - intros Hopen. apply sends_open; [exact Hopen|].
    right. rewrite Hempty. exact Hcap.
  - intros c' Hs. apply sends_inv in Hs. subst c'.
    rewrite receives_take by (simpl; rewrite Hempty; simpl; lia).
    simpl. rewrite Hempty. simpl.
    rewrite firstn_all, drop_all. destruct c; simpl in *; now subst.
Qed.

Lemma fifo_within_capacity_witness :
  (is_Some (sends [VInt 1; VInt 2; VInt 3] (make_channel 3)))
  ∧ ∀ c', sends [VInt 1; VInt 2; VInt 3] (make_channel 3) = Some c' →
          receives 3 c' = Some ([Some (VInt 1); Some (VInt 2); Some (VInt 3)],
                                make_channel 3).
Proof.
  destruct (fifo_within_capacity (make_channel 3) [VInt 1; VInt 2; VInt 3])
    as [Hsome Hrecv]; [reflexivity | simpl; lia |].
  split; [apply Hsome; reflexivity | exact Hrecv].
Defined.

(** C3. In every state a channel reaches after [close], whatever calls come
    in between: [send] returns false and leaves the buffer as it is; [receive]
    does not park, it returns no value when the buffer is empty and otherwise
    takes the oldest buffered Value out and returns it. *)
Theorem closed_channel_send_receive (c0 : Channel) (ops : list op) (value : Value) :
  let c := (run ops (close c0)).2 in
  closed c = true
  ∧ send value c = Returns false c
  ∧ receive c =
      match buffer c with
      | [] => Returns None c
      | oldest :: rest =>
          Returns (Some oldest)
            {| buffer := rest; max_size := max_size c; closed := true |}
      end.
Proof.
  intros c. assert (Hc : closed c = true) by (apply run_closed; reflexivity).
  split; [exact Hc|]. split; [apply send_closed, Hc|].
  destruct (buffer c) as [|oldest rest] eqn:Hb.
  - now rewrite (receive_nil c Hb), Hc.
  - now rewrite (receive_cons c oldest rest Hb), Hc.
Qed.

(** C10. [is_full] is false on every channel whose capacity is 0, whatever
    its buffer holds and whether it is closed or not; a channel that reports
    full has a positive capacity. *)
Theorem is_full_capacity_zero :
  (∀ (held : list Value) (cl : bool),
     is_full {| buffer := held; max_size := 0; closed := cl |} = false)
  ∧ (∀ c : Channel, is_full c = true → (0 < capacity c)%N).
Proof.
  split; [reflexivity|].
  intros c. unfold is_full, capacity.
  destruct (N.eqb_spec (max_size c) 0); [discriminate | lia].
Qed.

(** C1, as the claim has it, fails: on a fresh channel of capacity 0 the one
    and only call, a send, returns true with its Value stored in the buffer;
    no receive was ever issued. *)
Lemma capacity_zero_send_alone :
  run [Send (VInt 7)] (make_channel 0)
  = ([Sent (VInt 7) true],
     {| buffer := [VInt 7]; max_size := 0; closed := false |}).
Proof. reflexivity. Qed.

(** C1, amended. On a channel created with capacity 0, after any calls: the
    Values sent so far are, in order, the Values received so far followed by
    the Values still in the buffer, so a receive hands out a Value only after
    the send of that Value; a receive on the empty open channel parks; and a
    send on the open channel never waits for a receiver: it appends its Value
    to the buffer and returns true. *)
Theorem capacity_zero_buffers_without_bound (ops : list op) :
  let es := (run ops (make_channel 0)).1 in
  let c := (run ops (make_channel 0)).2 in
  sent es = received es ++ buffer c
  ∧ (closed c = false →
     (buffer c = [] → receive c = Waits not_empty)
     ∧ ∀ value, send value c = Returns true (push value c)).
Proof.
  intros es c. split.
  - exact (run_fifo ops (make_channel 0)).
  - intros Hopen. split.
    + intros Hb. now rewrite (receive_nil c Hb), Hopen.
    + intros value. apply send_open; [exact Hopen|].
      left. exact (run_max_size ops (make_channel 0)).
Qed.

End ChannelFacts.

(** * Properties of the scheduler *)

Section SchedulerFacts.
Import Sched.

Lemma join_worker_keeps (ws : list thread) (log : list nat) (t : nat) :
  t ∈ log → t ∈ foldl join_worker log ws.
Proof.
  revert log. induction ws as [|w ws IH]; intros log Ht; simpl; [exact Ht|].
  apply IH. unfold join_worker. destruct (joinable w); [|exact Ht].
  apply elem_of_app. now left.
Qed.

Lemma join_worker_joins (ws : list thread) (log : list nat) (w : thread) :
  w ∈ ws → joinable w = true → tid w ∈ foldl join_worker log ws.
Proof.
  revert log. induction ws as [|w0 ws IH]; intros log Hin Hj.
  - inversion Hin.
  - simpl. apply elem_of_cons in Hin as [<-|Hin].
    + apply join_worker_keeps. unfold join_worker. rewrite Hj.
      apply elem_of_app. right. now apply list_elem_of_singleton.
    + now apply IH.
Qed.

Lemma stop_not_running (s : Scheduler) : running s = false → stop s = s.
Proof. intros H. unfold stop. now rewrite H. Qed.

Lemma running_stop (s : Scheduler) : running (stop s) = false.
Proof. unfold stop. destruct (running s) eqn:H; [reflexivity | exact H]. Qed.

(** Every thread [start] puts in the worker vector is joinable, and there
    are as many as the capacity reserved by the constructor. *)
Lemma emplace_workers_joinable (n : nat) (s : Scheduler) :
  Forall (λ w, joinable w = true) (workers s) →
  Forall (λ w, joinable w = true) (workers (Nat.iter n emplace_worker s)).
Proof.
  induction n as [|n IH]; intros H; simpl; [exact H|].
  apply Forall_app. split; [now apply IH | now repeat constructor].
Qed.

Lemma emplace_workers_length (n : nat) (s : Scheduler) :
  length (workers (Nat.iter n emplace_worker s)) = (length (workers s) + n)%nat.
Proof.
  induction n as [|n IH]; simpl; [lia|].
  rewrite length_app, IH. simpl. lia.
Qed.

Lemma start_new_workers (n : nat) :
  let s := start (new_Scheduler n) in
  running s = true ∧ length (workers s) = n
  ∧ Forall (λ w, joinable w = true) (workers s).
Proof.
  simpl. unfold start. simpl. split; [|split].
  - generalize (set_running true (new_Scheduler n)), (eq_refl : running (set_running true (new_Scheduler n)) = true).
    intros s Hs. induction n as [|n IH]; simpl; [exact Hs | exact IH].
  - now rewrite emplace_workers_length.
  - apply emplace_workers_joinable. constructor.
Qed.

(** C9. Any number of calls of [stop] in a row leave the scheduler as the
    first one does: a call on a scheduler that is not running changes
    nothing.  A call on a running scheduler joins every joinable thread of the
    worker vector, empties the vector and leaves the scheduler stopped. *)
Theorem stop_is_idempotent_and_joins (s : Scheduler) :
  (∀ n : nat, Nat.iter (S n) stop s = stop s)
  ∧ (running s = false → stop s = s)
  ∧ (running s = true →
     workers (stop s) = [] ∧ running (stop s) = false
     ∧ ∀ w, w ∈ workers s → joinable w = true → tid w ∈ joined (stop s)).
Proof.
  split.
  { induction n as [|n IH]; [reflexivity|].
    change (stop (Nat.iter (S n) stop s) = stop s). rewrite IH.
    apply stop_not_running, running_stop. }
  split; [apply stop_not_running|].
  intros Hrun. unfold stop. rewrite Hrun. simpl.
  repeat split. intros w Hin Hj. now apply join_worker_joins.
Qed.

Lemma spawns_running_fibers (ws : list Work) (s : Scheduler) :
  running_fibers (foldl (λ acc child, spawn child acc) s ws) = running_fibers s.
Proof.
  revert s. induction ws as [|w ws IH]; intros s; simpl; [reflexivity|].
  now rewrite IH.
Qed.

Lemma spawns_waiting_fibers (ws : list Work) (s : Scheduler) :
  waiting_fibers (foldl (λ acc child, spawn child acc) s ws) = waiting_fibers s.
Proof.
  revert s. induction ws as [|w ws IH]; intros s; simpl; [reflexivity|].
  now rewrite IH.
Qed.

Lemma spawns_keep_fiber (ws : list Work) (s : Scheduler) (fid : nat) :
  is_Some (fibers s !! fid) →
  is_Some (fibers (foldl (λ acc child, spawn child acc) s ws) !! fid).
Proof.
  revert s. induction ws as [|w ws IH]; intros s H; simpl; [exact H|].
  apply IH. simpl. destruct (decide (next_id s = fid)) as [->|Hne].
  - rewrite lookup_insert_eq. eauto.
  - now rewrite lookup_insert_ne.
Qed.

(** [Fiber::start] leaves the running vector as it found it. *)
Lemma start_fiber_running_fibers (fid : nat) (s : Scheduler) :
  running_fibers (start_fiber fid s) = running_fibers s.
Proof.
  unfold start_fiber. destruct (fibers s !! fid) as [f|]; [|reflexivity].
  destruct (decide (state f = READY)); [|reflexivity].
  simpl. now rewrite spawns_running_fibers.
Qed.

Lemma start_fiber_finished (fid : nat) (s : Scheduler) :
  get_state fid s = Some READY → get_state fid (start_fiber fid s) = Some FINISHED.
Proof.
  unfold get_state, start_fiber. intros H.
  destruct (fibers s !! fid) as [f|] eqn:Hf; [|discriminate].
  simpl in H. injection H as H. rewrite decide_True by exact H.
  simpl. rewrite lookup_alter_eq.
  destruct (spawns_keep_fiber (children_of (function f))
              (update_fiber fid (set_state RUNNING) s) fid) as [g Hg].
  - simpl. rewrite lookup_alter_eq, Hf. simpl. eauto.
  - now rewrite Hg.
Qed.

(** No turn of a worker ever takes a fiber out of the running vector. *)
Lemma worker_turn_keeps_running (s : Scheduler) :
  running_fibers s `prefix_of` running_fibers (worker_turn s).
Proof.
  unfold worker_turn, get_next_fiber.
  destruct (ready_queue s) as [|fid rest]; [reflexivity|].
  assert (Hpre : running_fibers s `prefix_of`
    (if decide (get_state fid s = Some READY)
     then running_fibers s ++ [fid] else running_fibers s)).
  { destruct (decide _); [now apply prefix_app_r | reflexivity]. }
  match goal with |- context [decide (get_state fid ?x = Some READY)] =>
    destruct (decide (get_state fid x = Some READY)) end.
  - now rewrite start_fiber_running_fibers.
  - exact Hpre.
Qed.

(** C7, what the code does. A worker that takes a READY fiber from the front
    of the ready queue runs it to its end, and after that turn the fiber is
    FINISHED and still a member of the running vector, so the test of
    [wait_all] is false. *)
Theorem finished_fiber_stays_in_running (s : Scheduler) (fid : nat) (rest : list nat) :
  ready_queue s = fid :: rest →
  get_state fid s = Some READY →
  get_state fid (worker_turn s) = Some FINISHED
  ∧ fid ∈ running_fibers (worker_turn s)
  ∧ wait_all_done (worker_turn s) = false.
Proof.
  intros Hq Hst.
  assert (Hin : fid ∈ running_fibers (worker_turn s)).
  { unfold worker_turn, get_next_fiber. rewrite Hq.
    unfold get_state at 1. simpl. fold (get_state fid s).
    rewrite (decide_True _ _ Hst).
    match goal with |- context [decide (?P)] => rewrite (decide_True (P:=P)) by exact Hst end.
    rewrite start_fiber_running_fibers. simpl.
    apply elem_of_app. right. now apply list_elem_of_singleton. }
  split; [|split; [exact Hin|]].
  - unfold worker_turn, get_next_fiber. rewrite Hq.
    match goal with |- context [decide (?P)] => rewrite (decide_True (P:=P)) by exact Hst end.
    now apply start_fiber_finished.
  - unfold wait_all_done.
    destruct (running_fibers (worker_turn s)) as [|x l] eqn:Hr; [inversion Hin|].
    rewrite (bool_decide_eq_false_2 (x :: l = [])) by discriminate.
    now rewrite andb_false_r.
Qed.

Lemma finished_fiber_stays_in_running_witness :
  let s := spawn (Spawns []) (start (new_Scheduler 1)) in
  get_state 1 (worker_turn s) = Some FINISHED
  ∧ 1%nat ∈ running_fibers (worker_turn s)
  ∧ wait_all_done (worker_turn s) = false.
Proof.
  apply (finished_fiber_stays_in_running
           (spawn (Spawns []) (start (new_Scheduler 1))) 1%nat []);
    reflexivity.
Defined.

End SchedulerFacts.

(** * Properties of the garbage collector *)

Section GarbageCollectorFacts.
Import GC.

Lemma wrap_add_l (a b : Z) : wrap (wrap a + b) = wrap (a + b).
Proof. unfold wrap. apply Zplus_mod_idemp_l. Qed.

Lemma wrap_sub_l (a b : Z) : wrap (wrap a - b) = wrap (a - b).
Proof. unfold wrap. apply Zminus_mod_idemp_l. Qed.

Lemma sum_sizes_insert (m : gmap Z ObjectInfo) (p : Z) (info : ObjectInfo) :
  m !! p = None → sum_sizes (<[p := info]> m) = size info + sum_sizes m.
Proof.
  intros H. unfold sum_sizes. rewrite map_fold_insert_L; [reflexivity | | exact H].
  intros. lia.
Qed.

Lemma sum_sizes_delete (m : gmap Z ObjectInfo) (p : Z) (info : ObjectInfo) :
  m !! p = Some info → sum_sizes m = size info + sum_sizes (delete p m).
Proof.
  intros H. unfold sum_sizes. rewrite (map_fold_delete_L _ _ p info m); [reflexivity | | exact H].
  intros. lia.
Qed.

Lemma sum_sizes_set_marked (b : bool) (m : gmap Z ObjectInfo) :
  sum_sizes (set_marked b <$> m) = sum_sizes m.
Proof. unfold sum_sizes. now rewrite map_fold_fmap. Qed.

Lemma set_mutex_release (gc : GarbageCollector) :
  gc_mutex gc = false → set_mutex false (set_mutex true gc) = gc.
Proof. destruct gc. simpl. now intros ->. Qed.

(** A sweep over a registry in which every mark is set removes nothing. *)
Lemma sweep_all_marked (gc : GarbageCollector) :
  map_Forall (λ _ info, marked info = true) (objects gc) →
  sweep_unreachable_objects gc = gc.
Proof.
  unfold sweep_unreachable_objects.
  apply (map_fold_weak_ind
           (λ r m, map_Forall (λ _ info, marked info = true) m → r = gc)).
  - reflexivity.
  - intros p info m r Hnone IH Hall.
    apply map_Forall_insert in Hall as [Hm Hall]; [|exact Hnone].
    unfold sweep_entry. rewrite Hm. simpl. now apply IH.
Qed.

Lemma mark_reachable_marks_all (gc : GarbageCollector) :
  map_Forall (λ _ info, marked info = true) (objects (mark_reachable_objects gc)).
Proof.
  simpl. intros p info. rewrite lookup_fmap.
  destruct (objects gc !! p); simpl; [now intros [= <-] | discriminate].
Qed.

Lemma mark_and_sweep_marks (gc : GarbageCollector) :
  mark_and_sweep gc =
  {| objects := set_marked true <$> objects gc;
     memory_threshold := memory_threshold gc;
     total_allocated := total_allocated gc;
     gc_mutex := gc_mutex gc |}.
Proof.
  unfold mark_and_sweep.
  rewrite sweep_all_marked by apply mark_reachable_marks_all.
  unfold mark_reachable_objects, reset_marks. simpl. f_equal.
  rewrite <- map_fmap_compose. reflexivity.
Qed.

(** C4, as the claim has it, fails: with one object registered and nothing
    reachable from any root, [collect] returns and the object is still
    registered. *)
Lemma collect_keeps_unreachable_object :
  register_object 4096 100 new_GarbageCollector = Returns tt one_object
  ∧ ¬ (∀ (reachable : Z → bool) (gc' : GarbageCollector) (p : Z),
         collect one_object = Returns tt gc' →
         reachable p = false → objects gc' !! p = None).
Proof.
  split; [reflexivity|]. intros H.
  specialize (H (λ _, false) _ 4096 eq_refl eq_refl).
  vm_compute in H. discriminate H.
Qed.

(** C4, amended. [collect], called by a thread that does not hold the lock,
    returns and removes no registered object, reachable from a root or not:
    every object stays registered with its size and its mark bit set, and
    [allocated_objects()] and [total_memory()] are what they were. *)
Theorem collect_removes_nothing (gc : GarbageCollector) :
  gc_mutex gc = false →
  ∃ gc', collect gc = Returns tt gc'
    ∧ (∀ p, objects gc' !! p = set_marked true <$> objects gc !! p)
    ∧ allocated_objects gc' = allocated_objects gc
    ∧ total_memory gc' = total_memory gc.
Proof.
  intros Hfree. unfold collect, lock_guard. rewrite Hfree.
  eexists. split; [reflexivity|].
  rewrite mark_and_sweep_marks. simpl. split; [|split].
  - intros p. now rewrite lookup_fmap.
  - unfold allocated_objects. simpl. apply map_size_fmap.
  - reflexivity.
Qed.

Lemma collect_removes_nothing_witness :
  ∃ gc', collect one_object = Returns tt gc'
    ∧ (∀ p, objects gc' !! p = set_marked true <$> objects one_object !! p)
    ∧ allocated_objects gc' = allocated_objects one_object
    ∧ total_memory gc' = total_memory one_object.
Proof. apply (collect_removes_nothing one_object). reflexivity. Defined.

(** Below the threshold [register_object] returns with the object recorded
    and its size added to the total. *)
Lemma register_object_returns (gc : GarbageCollector) (p sz : Z) :
  gc_mutex gc = false →
  wrap (total_allocated gc + sz) ≤ memory_threshold gc →
  register_object p sz gc =
  Returns tt
    {| objects := <[p := {| ptr := p; size := sz; marked := false |}]> (objects gc);
       memory_threshold := memory_threshold gc;
       total_allocated := wrap (total_allocated gc + sz);
       gc_mutex := false |}.
Proof.
  intros Hfree Hle. unfold register_object, lock_guard. rewrite Hfree. simpl.
  destruct (Z.gtb_spec (wrap (total_allocated gc + sz)) (memory_threshold gc));
    [lia | reflexivity].
Qed.

(** C5, what the code does. When the total after recording exceeds the
    threshold, [register_object] calls [collect] with [gc_mutex] still held
    by its own lock guard; [collect] locks the same mutex, and the call never
    returns: no collection pass runs. *)
Theorem register_object_over_threshold_hangs (gc : GarbageCollector) (p sz : Z) :
  gc_mutex gc = false →
  wrap (total_allocated gc + sz) > memory_threshold gc →
  register_object p sz gc = Hangs.
Proof.
  intros Hfree Hgt. unfold register_object, lock_guard. rewrite Hfree. simpl.
  destruct (Z.gtb_spec (wrap (total_allocated gc + sz)) (memory_threshold gc));
    [reflexivity | lia].
Qed.

Lemma register_object_over_threshold_hangs_witness :
  register_object 4096 2048 (set_threshold 1024 new_GarbageCollector) = Hangs.
Proof.
  apply (register_object_over_threshold_hangs
           (set_threshold 1024 new_GarbageCollector) 4096 2048);
    [reflexivity | vm_compute; reflexivity].
Defined.

(** C6, as the claim has it, fails: an object is registered and unregistered,
    and the second [unregister_object] of the same identity returns as any
    other call does, reporting nothing. *)
Lemma double_unregister_not_reported :
  unregister_object 4096 one_object = Returns tt new_GarbageCollector
  ∧ unregister_object 4096 new_GarbageCollector = Returns tt new_GarbageCollector
  ∧ reports_error (unregister_object 4096 new_GarbageCollector) = false.
Proof. repeat split; reflexivity. Qed.

(** C6, amended. [unregister_object] on an identity that is not registered
    returns normally, with no error, and leaves the collector as it was:
    registry, total and threshold. *)
Theorem unregister_unknown_is_silent (gc : GarbageCollector) (p : Z) :
  gc_mutex gc = false →
  objects gc !! p = None →
  unregister_object p gc = Returns tt gc
  ∧ reports_error (unregister_object p gc) = false.
Proof.
  intros Hfree Hnone. unfold unregister_object, lock_guard.
  rewrite Hfree. simpl. rewrite Hnone.
  now rewrite set_mutex_release.
Qed.

Lemma unregister_unknown_is_silent_witness :
  unregister_object 8192 one_object = Returns tt one_object
  ∧ reports_error (unregister_object 8192 one_object) = false.
Proof. apply (unregister_unknown_is_silent one_object 8192); reflexivity. Defined.

(** Registering an identity that is not in the registry keeps the invariant. *)
Lemma register_fresh_tracked (gc gc' : GarbageCollector) (p sz : Z) :
  objects gc !! p = None → tracked gc →
  register_object p sz gc = Returns tt gc' → tracked gc'.
Proof.
  intros Hnone Htr. unfold register_object, lock_guard.
  destruct (gc_mutex gc); [discriminate|]. simpl.
  destruct (wrap (total_allocated gc + sz) >? memory_threshold gc); [discriminate|].
  intros [= <-]. unfold tracked, registered_bytes in *. simpl.
  rewrite sum_sizes_insert by exact Hnone.
  rewrite Htr, wrap_add_l. simpl. f_equal. lia.
Qed.

(** [unregister_object] keeps the invariant, registered identity or not. *)
Lemma unregister_tracked (gc gc' : GarbageCollector) (p : Z) :
  tracked gc → unregister_object p gc = Returns tt gc' → tracked gc'.
Proof.
  intros Htr. unfold unregister_object, lock_guard.
  destruct (gc_mutex gc); [discriminate|]. simpl.
  destruct (objects gc !! p) as [info|] eqn:Hp; intros [= <-];
    unfold tracked, registered_bytes in *; simpl; [|exact Htr].
  rewrite Htr, wrap_sub_l, (sum_sizes_delete _ p info Hp). f_equal. lia.
Qed.

(** The sweep, whatever the marks are: it keeps the threshold, keeps the
    marked objects and only them, and keeps the invariant, as it takes the
    size of each object it removes off the total. *)
Lemma sweep_tracked (gc : GarbageCollector) :
  tracked gc →
  let r := sweep_unreachable_objects gc in
  memory_threshold r = memory_threshold gc
  ∧ (∀ p, objects r !! p =
          match objects gc !! p with
          | Some info => if marked info then Some info else None
          | None => None
          end)
  ∧ tracked r.
Proof.
  intros Htr. simpl. unfold sweep_unreachable_objects.
  cut (objects gc ⊆ objects gc →
       memory_threshold (map_fold sweep_entry gc (objects gc)) = memory_threshold gc
       ∧ (∀ p, objects (map_fold sweep_entry gc (objects gc)) !! p =
               match objects gc !! p with
               | Some info => if marked info then Some info else None
               | None => objects gc !! p
               end)
       ∧ tracked (map_fold sweep_entry gc (objects gc))).
  { intros H. destruct H as (Ht & Hl & Hr); [reflexivity|].
    split; [exact Ht | split; [|exact Hr]].
    intros p. rewrite Hl. now destruct (objects gc !! p). }
  apply (map_fold_weak_ind
    (λ r m, m ⊆ objects gc →
       memory_threshold r = memory_threshold gc
       ∧ (∀ p, objects r !! p =
               match m !! p with
               | Some info => if marked info then Some info else None
               | None => objects gc !! p
               end)
       ∧ tracked r)).
  - intros _. split; [reflexivity | split; [|exact Htr]].
    intros p. now rewrite lookup_empty.
  - intros i info m r Hnone IH Hsub.
    assert (Hi : objects gc !! i = Some info).
    { eapply lookup_weaken; [|exact Hsub]. apply lookup_insert_eq. }
    destruct IH as (Ht & Hl & Hr).
    { etrans; [|exact Hsub]. now apply insert_subseteq. }
    assert (Hri : objects r !! i = Some info) by now rewrite Hl, Hnone.
    unfold sweep_entry. destruct (marked info) eqn:Hm; simpl.
    + split; [exact Ht | split; [|exact Hr]].
      intros p. destruct (decide (i = p)) as [<-|Hne].
      * now rewrite lookup_insert_eq, Hm.
      * rewrite lookup_insert_ne by exact Hne. apply Hl.
    + split; [exact Ht | split].
      * intros p. destruct (decide (i = p)) as [<-|Hne].
        -- now rewrite lookup_delete_eq, lookup_insert_eq, Hm.
        -- rewrite lookup_delete_ne, lookup_insert_ne by exact Hne. apply Hl.
      * unfold tracked, registered_bytes in *. simpl.
        rewrite Hr, wrap_sub_l, (sum_sizes_delete _ i info Hri). f_equal. lia.
Qed.

Lemma collect_tracked (gc gc' : GarbageCollector) :
  tracked gc → collect gc = Returns tt gc' → tracked gc'.
Proof.
  intros Htr. unfold collect, lock_guard.
  destruct (gc_mutex gc); [discriminate|]. intros [= <-].
  rewrite mark_and_sweep_marks. unfold tracked, registered_bytes in *. simpl.
  now rewrite sum_sizes_set_marked.
Qed.

(** C8, what the code does. [register_object] on an identity that is already
    registered replaces the entry and still adds the new size to the total,
    so the total comes out above the sum of the registered sizes by the size
    of the entry that was replaced. *)
Theorem reregistered_object_counted_twice
    (gc : GarbageCollector) (p sz : Z) (old : ObjectInfo) :
  gc_mutex gc = false →
  objects gc !! p = Some old →
  wrap (total_allocated gc + sz) ≤ memory_threshold gc →
  tracked gc →
  ∃ gc', register_object p sz gc = Returns tt gc'
    ∧ size <$> objects gc' !! p = Some sz
    ∧ total_memory gc' = wrap (registered_bytes gc' + size old).
Proof.
  intros Hfree Hold Hle Htr. eexists. split; [now apply register_object_returns|].
  simpl. split; [now rewrite lookup_insert_eq|].
  unfold total_memory, registered_bytes. simpl.
  rewrite <- insert_delete_eq, sum_sizes_insert by apply lookup_delete_eq.
  unfold tracked, registered_bytes in Htr.
  rewrite Htr, wrap_add_l, (sum_sizes_delete _ p old Hold). simpl. f_equal. lia.
Qed.

Lemma reregistered_object_counted_twice_witness :
  ∃ gc', register_object 4096 200 one_object = Returns tt gc'
    ∧ size <$> objects gc' !! 4096 = Some 200
    ∧ total_memory gc' = wrap (registered_bytes gc' + 100).
Proof.
  apply (reregistered_object_counted_twice one_object 4096 200
           {| ptr := 4096; size := 100; marked := false |});
    [reflexivity | reflexivity | vm_compute; discriminate | vm_compute; reflexivity].
Defined.

(** The same run in numbers: 100 bytes, then 200 bytes at the same address;
    one object of 200 bytes is registered and the total says 300. *)
Example reregistered_object_totals :
  and_then (register_object 4096 100 new_GarbageCollector) (register_object 4096 200)
  = Returns tt
      {| objects := {[ 4096 := {| ptr := 4096; size := 200; marked := false |} ]};
         memory_threshold := 1024 * 1024; total_allocated := 300;
         gc_mutex := false |}
  ∧ registered_bytes
      {| objects := {[ 4096 := {| ptr := 4096; size := 200; marked := false |} ]};
         memory_threshold := 1024 * 1024; total_allocated := 300;
         gc_mutex := false |} = 200.
Proof. split; reflexivity. Qed.

(** The test of the runtime: 100 and 200 bytes at two addresses. *)
Example test_gc_two_objects :
  ∃ gc, and_then (register_object 4096 100 new_GarbageCollector) (register_object 8192 200)
        = Returns tt gc
    ∧ allocated_objects gc = 2%nat ∧ total_memory gc = 300.
Proof. eexists. repeat split. Qed.

End GarbageCollectorFacts.

(** * More on the channel *)

Section ChannelMore.
Import Chan.

Lemma size_push (value : Value) (c : Channel) : size (push value c) = (size c + 1)%N.
Proof. unfold size, push. simpl. rewrite length_app. simpl. lia. Qed.

Lemma is_full_spec (c : Channel) :
  is_full c = true ↔ (0 < max_size c ≤ size c)%N.
Proof.
  unfold is_full. destruct (N.eqb_spec (max_size c) 0) as [H0|Hne].
  - split; [discriminate | lia].
  - rewrite N.leb_le. lia.
Qed.

(** FIFO on every channel, bounded or not, open or closed, over any run of
    calls: the Values received are the first of the Values buffered at the
    start followed by the Values the successful sends handed in, in that
    order, and the rest of them is what the buffer holds at the end. *)
Theorem channel_fifo_any_run (ops : list op) (c : Channel) :
  received (run ops c).1 `prefix_of` buffer c ++ sent (run ops c).1
  ∧ buffer c ++ sent (run ops c).1
    = received (run ops c).1 ++ buffer (run ops c).2.
Proof.
  split; [|apply run_fifo].
  exists (buffer (run ops c).2). apply run_fifo.
Qed.

Lemma step_bounded (o : op) (c : Channel) :
  (0 < max_size c)%N → (size c ≤ max_size c)%N →
  (size (step o c).2 ≤ max_size c)%N.
Proof.
  intros Hpos Hle. destruct o as [value| |]; simpl; [| |exact Hle].
  - unfold send, send_after_wait.
    destruct (closed c); [exact Hle|]. rewrite orb_false_r.
    replace (0 <? max_size c)%N with true by (symmetry; apply N.ltb_lt; lia).
    destruct (N.leb_spec (max_size c) (size c)) as [Hfull|Hroom]; simpl.
    + destruct (N.ltb_spec (size c) (max_size c)); simpl; [lia | exact Hle].
    + rewrite size_push. lia.
  - destruct (buffer c) as [|v rest] eqn:Hb.
    + rewrite (receive_nil c Hb). now destruct (closed c).
    + rewrite (receive_cons c v rest Hb). simpl.
      unfold size in *. rewrite Hb in Hle. simpl in *. lia.
Qed.

(** A bounded channel never holds more Values than its capacity: from
    [make_channel] with a positive capacity, or from any state within the
    bound, no run of sends, receives and closes takes the buffer past
    [max_size]. *)
Theorem bounded_buffer_within_capacity (ops : list op) (c : Channel) :
  (0 < max_size c)%N → (size c ≤ max_size c)%N →
  (size (run ops c).2 ≤ capacity (run ops c).2)%N.
Proof.
  unfold capacity. rewrite run_max_size.
  revert c. induction ops as [|o ops IH]; intros c Hpos Hle; [exact Hle|].
  rewrite run_cons. simpl snd.
  rewrite <- (step_max_size o c). apply IH.
  - now rewrite step_max_size.
  - rewrite step_max_size. now apply step_bounded.
Qed.

Lemma bounded_buffer_within_capacity_witness :
  (size (run [Send VNull; Send (VInt 2); Send (VInt 3); Receive; Close]
           (make_channel 2)).2
   ≤ capacity (run [Send VNull; Send (VInt 2); Send (VInt 3); Receive; Close]
                 (make_channel 2)).2)%N.
Proof.
  apply (bounded_buffer_within_capacity
           [Send VNull; Send (VInt 2); Send (VInt 3); Receive; Close]
           (make_channel 2));
    [reflexivity | vm_compute; discriminate].
Defined.

(** The observers tell which call would park: on every channel, [send] parks
    exactly when the channel is open and [is_full], and then on [not_full];
    [receive] parks exactly when the channel is open and [is_empty], and then
    on [not_empty]. *)
Theorem parking_matches_observers (value : Value) (c : Channel) :
  (∀ cv, send value c = Waits cv ↔
         cv = not_full ∧ is_closed c = false ∧ is_full c = true)
  ∧ (∀ cv, receive c = Waits cv ↔
           cv = not_empty ∧ is_closed c = false ∧ is_empty c = true).
Proof.
  unfold is_closed. split; intros cv.
  - destruct (closed c) eqn:Hc.
    { rewrite (send_closed value c Hc). split; [discriminate|].
      intros (_ & ? & _). discriminate. }
    destruct (is_full c) eqn:Hf.
    + apply is_full_spec in Hf. rewrite (send_full value c Hc Hf).
      split; [now intros [= <-] | now intros (-> & _)].
    + assert (Hroom : (max_size c = 0 ∨ size c < max_size c)%N).
      { destruct (N.eq_dec (max_size c) 0) as [|Hne]; [now left | right].
        destruct (N.lt_ge_cases (size c) (max_size c)) as [|Hge]; [assumption|].
        assert (is_full c = true) by (apply is_full_spec; lia). congruence. }
      rewrite (send_open value c Hc Hroom). split; [discriminate|].
      intros (_ & _ & ?). discriminate.
  - destruct (buffer c) as [|v rest] eqn:Hb.
    + rewrite (receive_nil c Hb). unfold is_empty. rewrite Hb.
      destruct (closed c).
      * split; [discriminate | intros (_ & ? & _); discriminate].
      * split; [now intros [= <-] | now intros (-> & _)].
    + rewrite (receive_cons c v rest Hb). unfold is_empty. rewrite Hb.
      split; [discriminate | intros (_ & _ & ?); discriminate].
Qed.


(** Backpressure: a sender parked on an open channel filled to its capacity
    goes through as soon as one receive has taken the oldest Value out, and
    its Value becomes the newest of a channel that is full again. *)
Theorem receive_unparks_sender (value : Value) (c : Channel) :
  closed c = false → (0 < max_size c)%N → size c = max_size c →
  send value c = Waits not_full
  ∧ ∃ oldest rest c1,
      buffer c = oldest :: rest
      ∧ receive c = Returns (Some oldest) c1
      ∧ send_after_wait value c1
        = Returns true
            {| buffer := rest ++ [value]; max_size := max_size c; closed := false |}
      ∧ is_full {| buffer := rest ++ [value]; max_size := max_size c;
                   closed := false |} = true.
Proof.
  intros Hopen Hpos Hsize. split; [apply send_full; [exact Hopen | lia]|].
  destruct (buffer c) as [|oldest rest] eqn:Hb.
  { unfold size in Hsize. rewrite Hb in Hsize. simpl in Hsize. lia. }
  exists oldest, rest. eexists. split; [reflexivity|].
  split; [apply (receive_cons c oldest rest Hb)|].
  assert (Hlen : (N.of_nat (length rest) + 1 = max_size c)%N).
  { unfold size in Hsize. rewrite Hb in Hsize. simpl in Hsize. lia. }
  split.
  - rewrite send_after_wait_is_send by exact Hpos.
    rewrite send_open; [unfold push; simpl; now rewrite Hopen | exact Hopen |].
    right. unfold size. simpl. lia.
  - apply is_full_spec. unfold size. simpl. rewrite length_app. simpl. lia.
Qed.

Lemma receive_unparks_sender_witness :
  let c := {| buffer := [VInt 1; VInt 2]; max_size := 2; closed := false |} in
  send (VInt 3) c = Waits not_full
  ∧ ∃ oldest rest c1,
      buffer c = oldest :: rest
      ∧ receive c = Returns (Some oldest) c1
      ∧ send_after_wait (VInt 3) c1
        = Returns true
            {| buffer := rest ++ [VInt 3]; max_size := max_size c; closed := false |}
      ∧ is_full {| buffer := rest ++ [VInt 3]; max_size := max_size c;
                   closed := false |} = true.
Proof.
  apply (receive_unparks_sender (VInt 3)
           {| buffer := [VInt 1; VInt 2]; max_size := 2; closed := false |});
    reflexivity.
Defined.

End ChannelMore.

(** * The states of a fiber *)

Section FiberFacts.
Import Sched FiberCalls.

Lemma apply_finished (c : call) (f : Fiber) :
  is_finished f = true → is_finished (apply c f) = true.
Proof.
  destruct f as [i st w]. intros Hf.
  destruct c, st; try (vm_compute in Hf; discriminate Hf); reflexivity.
Qed.

Lemma apply_terminal (c : call) (f : Fiber) :
  c ≠ Finish → is_finished f = true → apply c f = f.
Proof.
  destruct f as [i st w]. intros Hc Hf.
  destruct c, st; try (vm_compute in Hf; discriminate Hf); try congruence;
    reflexivity.
Qed.

(** FINISHED and ERROR are terminal: once [is_finished()] holds it holds after
    any calls of [start], [yield], [resume], [wait] and [finish], and the calls
    other than [finish] leave such a fiber exactly as it is.  [finish] alone
    moves an ERROR fiber, to FINISHED. *)
Theorem finished_fiber_is_terminal (cs : list call) (f : Fiber) :
  is_finished f = true →
  is_finished (calls cs f) = true
  ∧ (Finish ∉ cs → calls cs f = f)
  ∧ state (finish f) = FINISHED.
Proof.
  intros Hfin. split; [|split; [|reflexivity]].
  - revert f Hfin. induction cs as [|c cs IH]; intros f Hfin; [exact Hfin|].
    apply IH, apply_finished, Hfin.
  - revert f Hfin. induction cs as [|c cs IH]; intros f Hfin Hno; [reflexivity|].
    apply not_elem_of_cons in Hno as [Hc Hno].
    unfold calls. simpl. rewrite apply_terminal by (congruence || exact Hfin).
    now apply IH.
Qed.

Lemma finished_fiber_is_terminal_witness :
  let f := {| id := 1; state := ERROR; function := Spawns [] |} in
  is_finished (calls [Resume; Start; Finish; Yield] f) = true
  ∧ (Finish ∉ [Resume; Start; Finish; Yield] →
     calls [Resume; Start; Finish; Yield] f = f)
  ∧ state (finish f) = FINISHED.
Proof.
  apply (finished_fiber_is_terminal [Resume; Start; Finish; Yield]
           {| id := 1; state := ERROR; function := Spawns [] |}).
  reflexivity.
Defined.

(** No member of [Fiber] wakes a waiting fiber: [resume] acts on READY only,
    so a fiber in WAITING stays in WAITING through any calls of [start],
    [yield], [resume] and [wait]; [finish] is the only way out. *)
Theorem waiting_fiber_never_wakes (cs : list call) (f : Fiber) :
  state f = WAITING → Finish ∉ cs → calls cs f = f.
Proof.
  revert f. induction cs as [|c cs IH]; intros f Hw Hno; [reflexivity|].
  apply not_elem_of_cons in Hno as [Hc Hno].
  assert (Hsame : apply c f = f).
  { destruct f as [i st w]. simpl in Hw. subst st.
    destruct c; simpl; (congruence || reflexivity). }
  unfold calls. simpl. rewrite Hsame. now apply IH.
Qed.

Lemma waiting_fiber_never_wakes_witness :
  calls [Resume; Yield; Start; Wait; Resume]
    (wait {| id := 3; state := RUNNING; function := Spawns [] |})
  = wait {| id := 3; state := RUNNING; function := Spawns [] |}.
Proof.
  apply (waiting_fiber_never_wakes [Resume; Yield; Start; Wait; Resume]
           (wait {| id := 3; state := RUNNING; function := Spawns [] |}));
    [reflexivity|].
  intros H. repeat (apply elem_of_cons in H as [H|H]; [discriminate H|]).
  inversion H.
Defined.

(** A fiber's identity and function are never touched by the calls that move
    its state, and the only moves are READY to RUNNING or FINISHED, RUNNING to
    READY or WAITING, and anything to FINISHED by [finish]. *)
Theorem fiber_call_moves (c : call) (f : Fiber) :
  id (apply c f) = id f ∧ function (apply c f) = function f
  ∧ (state (apply c f) = state f
     ∨ (state f = READY ∧ c = Resume ∧ state (apply c f) = RUNNING)
     ∨ (state f = READY ∧ c = Start ∧ state (apply c f) = FINISHED)
     ∨ (state f = RUNNING ∧ c = Yield ∧ state (apply c f) = READY)
     ∨ (state f = RUNNING ∧ c = Wait ∧ state (apply c f) = WAITING)
     ∨ (c = Finish ∧ state (apply c f) = FINISHED)).
Proof.
  destruct f as [i st w]. destruct c, st; simpl; repeat split; tauto.
Qed.

End FiberFacts.

(** * Runs of the scheduler *)

Section SchedulerRuns.
Import Sched SchedRun.

Lemma get_state_spawn (func : Work) (s : Scheduler) (fid : nat) :
  get_state fid (spawn func s)
  = if decide (fid = next_id s) then Some READY else get_state fid s.
Proof.
  unfold get_state, spawn. simpl. destruct (decide (fid = next_id s)) as [->|Hne].
  - now rewrite lookup_insert_eq.
  - now rewrite lookup_insert_ne.
Qed.

Lemma get_state_update (g : Fiber → Fiber) (s : Scheduler) (fid fid' : nat) :
  get_state fid' (update_fiber fid g s)
  = if decide (fid' = fid) then state <$> (g <$> fibers s !! fid)
    else get_state fid' s.
Proof.
  unfold get_state, update_fiber. simpl.
  destruct (decide (fid' = fid)) as [->|Hne].
  - now rewrite lookup_alter_eq.
  - now rewrite lookup_alter_ne.
Qed.

Lemma placed_ids (cur : option nat) (s : Scheduler) (fid : nat) :
  placed cur s → fid ∈ running_fibers s ++ ready_queue s → (fid < next_id s)%nat.
Proof.
  intros (_ & Hn & Hseq & _) Hin. rewrite Hseq in Hin.
  apply elem_of_seq in Hin. lia.
Qed.

Lemma placed_NoDup (cur : option nat) (s : Scheduler) :
  placed cur s → NoDup (running_fibers s ++ ready_queue s).
Proof. intros (_ & _ & Hseq & _). rewrite Hseq. apply NoDup_seq. Qed.

Lemma placed_new (n : nat) : placed None (new_Scheduler n).
Proof.
  unfold placed. simpl. split_and!; try done.
  - intros fid H. inversion H.
  - intros fid H. inversion H.
Qed.

Lemma placed_spawn (cur : option nat) (func : Work) (s : Scheduler) :
  placed cur s → placed cur (spawn func s).
Proof.
  intros Hp.
  assert (Hlt : ∀ fid, fid ∈ running_fibers s → fid ≠ next_id s).
  { intros fid Hin ->. enough (next_id s < next_id s)%nat by lia.
    apply (placed_ids cur s _ Hp), elem_of_app. now left. }
  destruct Hp as (Hw & Hn & Hseq & Hready & Hrun & Hcur).
  unfold placed. simpl. split; [exact Hw|]. split; [lia|]. split; [|split; [|split]].
  - rewrite app_assoc, Hseq.
    replace (next_id s - 0)%nat with (S (next_id s - 1)) by lia.
    rewrite seq_S. do 2 f_equal. lia.
  - intros fid Hin. rewrite get_state_spawn. destruct (decide _); [reflexivity|].
    apply elem_of_app in Hin as [Hin|Hin]; [now apply Hready|].
    apply list_elem_of_singleton in Hin. contradiction.
  - intros fid Hin Hne. rewrite get_state_spawn.
    rewrite decide_False by now apply Hlt. now apply Hrun.
  - intros fid ->. destruct (Hcur fid eq_refl) as [Hin Hst]. split; [exact Hin|].
    rewrite get_state_spawn. now rewrite decide_False by now apply Hlt.
Qed.

Lemma placed_spawns (cur : option nat) (ws : list Work) (s : Scheduler) :
  placed cur s → placed cur (foldl (λ acc child, spawn child acc) s ws).
Proof.
  revert s. induction ws as [|w ws IH]; intros s Hp; [exact Hp|].
  simpl. apply IH, placed_spawn, Hp.
Qed.

(** A worker takes the READY fiber at the front of the queue and runs it. *)
Lemma placed_worker_turn (s : Scheduler) : placed None s → placed None (worker_turn s).
Proof.
  intros Hp. unfold worker_turn, get_next_fiber.
  destruct (ready_queue s) as [|fid rest] eqn:Hq; [exact Hp|].
  pose proof (placed_NoDup None s Hp) as Hnd. rewrite Hq in Hnd.
  destruct Hp as (Hw & Hn & Hseq & Hready & Hrun & _).
  assert (Hst : get_state fid s = Some READY).
  { apply Hready. rewrite Hq. now left. }
  rewrite decide_True by exact Hst.
  match goal with |- context [decide (?P)] => rewrite (decide_True (P:=P)) by exact Hst end.
  set (s1 := {| workers := workers s; workers_capacity := workers_capacity s;
                ready_queue := rest; running_fibers := running_fibers s ++ [fid];
                waiting_fibers := waiting_fibers s; running := running s;
                fibers := fibers s; next_id := next_id s;
                joined := joined s; next_tid := next_tid s |}).
  assert (Hfresh : (fid ∉ running_fibers s) ∧ (fid ∉ rest)).
  { apply NoDup_app in Hnd as (_ & Hdis & Hnd2). apply NoDup_cons in Hnd2 as [Hni _].
    split; [|exact Hni]. intros Hin. apply (Hdis fid Hin). now left. }
  destruct Hfresh as [Hnrun Hnrest].
  unfold start_fiber. change (fibers s1) with (fibers s).
  unfold get_state in Hst. destruct (fibers s !! fid) as [f|] eqn:Hf; [|discriminate].
  simpl in Hst. injection Hst as Hst. rewrite decide_True by exact Hst.
  assert (Hp2 : placed (Some fid) (update_fiber fid (set_state RUNNING) s1)).
  { unfold placed. simpl. split; [exact Hw|]. split; [exact Hn|].
    split; [now rewrite <- app_assoc, <- Hseq, Hq|]. split; [|split].
    - intros fid' Hin. rewrite get_state_update.
      destruct (decide (fid' = fid)) as [->|_]; [contradiction|].
      apply Hready. rewrite Hq. now right.
    - intros fid' Hin Hne. rewrite get_state_update.
      destruct (decide (fid' = fid)) as [->|Hd]; [congruence|].
      apply elem_of_app in Hin as [Hin|Hin]; [now apply Hrun|].
      apply list_elem_of_singleton in Hin. contradiction.
    - intros fid' [= <-]. split; [apply elem_of_app; right; now left|].
      rewrite get_state_update, decide_True by reflexivity.
      simpl. now rewrite Hf. }
  apply (placed_spawns _ (children_of (function f))) in Hp2.
  set (s3 := foldl _ _ _) in *.
  pose proof (placed_NoDup _ s3 Hp2) as Hnd3.
  destruct Hp2 as (Hw3 & Hn3 & Hseq3 & Hready3 & Hrun3 & Hcur3).
  destruct (Hcur3 fid eq_refl) as [Hin3 Hst3].
  unfold placed. simpl. split; [exact Hw3|]. split; [exact Hn3|].
  split; [exact Hseq3|]. split; [|split; [|discriminate]].
  - intros fid' Hin. rewrite get_state_update.
    destruct (decide (fid' = fid)) as [->|_]; [|now apply Hready3].
    apply NoDup_app in Hnd3 as (_ & Hdis & _). now destruct (Hdis fid Hin3).
  - intros fid' Hin _. rewrite get_state_update.
    destruct (decide (fid' = fid)) as [->|Hd]; [|apply Hrun3; [exact Hin | congruence]].
    unfold get_state in Hst3. destruct (fibers s3 !! fid); [reflexivity | discriminate].
Qed.

Lemma placed_same_fibers (s s' : Scheduler) :
  ready_queue s' = ready_queue s → running_fibers s' = running_fibers s →
  waiting_fibers s' = waiting_fibers s → fibers s' = fibers s →
  next_id s' = next_id s → placed None s → placed None s'.
Proof.
  unfold placed, get_state. intros -> -> -> -> ->. trivial.
Qed.

Lemma emplace_workers_fibers (n : nat) (s : Scheduler) :
  let s' := Nat.iter n emplace_worker s in
  ready_queue s' = ready_queue s ∧ running_fibers s' = running_fibers s
  ∧ waiting_fibers s' = waiting_fibers s ∧ fibers s' = fibers s
  ∧ next_id s' = next_id s ∧ running s' = running s
  ∧ workers_capacity s' = workers_capacity s.
Proof. induction n as [|n IH]; simpl; [tauto | exact IH]. Qed.

Lemma placed_apply (c : call) (s : Scheduler) : placed None s → placed None (apply c s).
Proof.
  intros Hp. destruct c as [func| | |]; simpl.
  - now apply placed_spawn.
  - unfold turn. destruct (running s); [|exact Hp].
    destruct (workers s); [exact Hp | now apply placed_worker_turn].
  - unfold start. destruct (running s); [exact Hp|].
    destruct (emplace_workers_fibers (workers_capacity s) (set_running true s))
      as (H1 & H2 & H3 & H4 & H5 & _).
    now apply (placed_same_fibers s).
  - unfold stop. destruct (running s); [|exact Hp].
    now apply (placed_same_fibers s).
Qed.

Lemma placed_exec (cs : list call) (s : Scheduler) :
  placed None s → placed None (exec cs s).
Proof.
  revert s. induction cs as [|c cs IH]; intros s Hp; [exact Hp|].
  apply IH, placed_apply, Hp.
Qed.

Lemma next_id_spawns (ws : list Work) (s : Scheduler) :
  (next_id s ≤ next_id (foldl (λ acc child, spawn child acc) s ws))%nat.
Proof.
  revert s. induction ws as [|w ws IH]; intros s; simpl; [lia|].
  etrans; [|apply IH]. simpl. lia.
Qed.

Lemma next_id_start_fiber (fid : nat) (s : Scheduler) :
  (next_id s ≤ next_id (start_fiber fid s))%nat.
Proof.
  unfold start_fiber. destruct (fibers s !! fid) as [f|]; [|lia].
  destruct (decide (state f = READY)); [|lia]. simpl.
  etrans; [|apply next_id_spawns]. simpl. lia.
Qed.

Lemma next_id_worker_turn (s : Scheduler) :
  (next_id s ≤ next_id (worker_turn s))%nat.
Proof.
  unfold worker_turn.
  assert (Hn : next_id (get_next_fiber s).2 = next_id s).
  { unfold get_next_fiber. now destruct (ready_queue s). }
  destruct (get_next_fiber s) as [[fid|] s']; simpl in Hn; rewrite <- Hn; [|lia].
  destruct (decide _); [apply next_id_start_fiber | lia].
Qed.

Lemma next_id_apply (c : call) (s : Scheduler) :
  (next_id s ≤ next_id (apply c s))%nat.
Proof.
  destruct c as [func| | |]; simpl.
  - lia.
  - unfold turn. destruct (running s); [|lia]. destruct (workers s); [lia|].
    apply next_id_worker_turn.
  - unfold start. destruct (running s); [lia|].
    destruct (emplace_workers_fibers (workers_capacity s) (set_running true s))
      as (_ & _ & _ & _ & -> & _). simpl. lia.
  - unfold stop. destruct (running s); simpl; lia.
Qed.

Lemma next_id_exec (cs : list call) (s : Scheduler) :
  (next_id s ≤ next_id (exec cs s))%nat.
Proof.
  revert s. induction cs as [|c cs IH]; intros s; [simpl; lia|].
  etrans; [apply (next_id_apply c)|apply IH].
Qed.

(** With nothing spawned yet, the calls other than [spawn] create no fiber. *)
Lemma apply_no_fiber (c : call) (s : Scheduler) :
  placed None s → next_id s = 1%nat → (∀ func, c ≠ Spawn func) →
  next_id (apply c s) = 1%nat.
Proof.
  intros Hp H1 Hns.
  assert (Hq : ready_queue s = []).
  { destruct Hp as (_ & _ & Hseq & _). rewrite H1 in Hseq. simpl in Hseq.
    now apply app_eq_nil in Hseq as [_ ?]. }
  destruct c as [func| | |]; simpl.
  - now destruct (Hns func).
  - unfold turn. destruct (running s); [|exact H1]. destruct (workers s); [exact H1|].
    unfold worker_turn, get_next_fiber. now rewrite Hq.
  - unfold start. destruct (running s); [exact H1|].
    destruct (emplace_workers_fibers (workers_capacity s) (set_running true s))
      as (_ & _ & _ & _ & -> & _). exact H1.
  - unfold stop. destruct (running s); exact H1.
Qed.

Lemma exec_no_fiber (cs : list call) (s : Scheduler) :
  placed None s → next_id s = 1%nat →
  (next_id (exec cs s) = 1%nat ↔ ∀ func, Spawn func ∉ cs).
Proof.
  revert s. induction cs as [|c cs IH]; intros s Hp H1.
  - split; [intros _ func H; inversion H | trivial].
  - change (exec (c :: cs) s) with (exec cs (apply c s)).
    destruct c as [func| | |].
    1: { split.
         - intros H. pose proof (next_id_exec cs (apply (Spawn func) s)) as Hle.
           exfalso. simpl in Hle, H. lia.
         - intros H. destruct (H func). now left. }
    all: rewrite IH by (first [now apply placed_apply
                              | apply apply_no_fiber; [exact Hp | exact H1 | discriminate]]).
    all: split; intros H func Hin;
      [ apply elem_of_cons in Hin as [Hin|Hin]; [discriminate Hin | now apply (H func)]
      | apply (H func); now right ].
Qed.

(** The worker pool through the calls. *)
Lemma spawns_threads (ws : list Work) (s : Scheduler) :
  let s' := foldl (λ acc child, spawn child acc) s ws in
  workers s' = workers s ∧ workers_capacity s' = workers_capacity s
  ∧ running s' = running s ∧ joined s' = joined s ∧ next_tid s' = next_tid s.
Proof.
  revert s. induction ws as [|w ws IH]; intros s; simpl; [tauto|].
  destruct (IH (spawn w s)) as (-> & -> & -> & -> & ->). tauto.
Qed.

Lemma start_fiber_threads (fid : nat) (s : Scheduler) :
  workers (start_fiber fid s) = workers s
  ∧ workers_capacity (start_fiber fid s) = workers_capacity s
  ∧ running (start_fiber fid s) = running s
  ∧ joined (start_fiber fid s) = joined s
  ∧ next_tid (start_fiber fid s) = next_tid s.
Proof.
  unfold start_fiber. destruct (fibers s !! fid) as [f|]; [|tauto].
  destruct (decide (state f = READY)); [|tauto]. simpl.
  apply (spawns_threads (children_of (function f))
           (update_fiber fid (set_state RUNNING) s)).
Qed.

Lemma worker_turn_threads (s : Scheduler) :
  workers (worker_turn s) = workers s
  ∧ workers_capacity (worker_turn s) = workers_capacity s
  ∧ running (worker_turn s) = running s ∧ joined (worker_turn s) = joined s
  ∧ next_tid (worker_turn s) = next_tid s.
Proof.
  unfold worker_turn.
  assert (Hn : workers (get_next_fiber s).2 = workers s
               ∧ workers_capacity (get_next_fiber s).2 = workers_capacity s
               ∧ running (get_next_fiber s).2 = running s
               ∧ joined (get_next_fiber s).2 = joined s
               ∧ next_tid (get_next_fiber s).2 = next_tid s).
  { unfold get_next_fiber. destruct (ready_queue s); simpl; tauto. }
  destruct (get_next_fiber s) as [[fid|] s']; simpl in Hn;
    destruct Hn as (<- & <- & <- & <- & <-); [|tauto].
  destruct (decide _); [apply start_fiber_threads | tauto].
Qed.

Lemma pooled_same_threads (s s' : Scheduler) :
  workers s' = workers s → workers_capacity s' = workers_capacity s →
  running s' = running s → joined s' = joined s → next_tid s' = next_tid s →
  pooled s → pooled s'.
Proof. unfold pooled. intros -> -> -> -> ->. trivial. Qed.

Lemma emplace_workers_pool (n : nat) (s : Scheduler) :
  joined s ++ (tid <$> workers s) = seq 0 (next_tid s) →
  joined (Nat.iter n emplace_worker s)
    ++ (tid <$> workers (Nat.iter n emplace_worker s))
  = seq 0 (next_tid (Nat.iter n emplace_worker s)).
Proof.
  intros H. induction n as [|n IH]; [exact H|].
  change (Nat.iter (S n) emplace_worker s)
    with (emplace_worker (Nat.iter n emplace_worker s)).
  set (s' := Nat.iter n emplace_worker s) in *.
  unfold emplace_worker. cbn [joined workers next_tid].
  rewrite fmap_app, app_assoc, IH, seq_S. reflexivity.
Qed.

Lemma join_all_joinable (ws : list thread) (log : list nat) :
  Forall (λ w, joinable w = true) ws →
  foldl join_worker log ws = log ++ (tid <$> ws).
Proof.
  revert log. induction ws as [|w ws IH]; intros log Hall; simpl.
  - now rewrite app_nil_r.
  - apply Forall_cons in Hall as [Hw Hall]. rewrite IH by exact Hall.
    unfold join_worker. rewrite Hw. now rewrite <- app_assoc.
Qed.

Lemma pooled_apply (c : call) (s : Scheduler) : pooled s → pooled (apply c s).
Proof.
  intros Hp. destruct c as [func| | |]; simpl.
  - now apply (pooled_same_threads s).
  - unfold turn. destruct (running s) eqn:Hr; [|exact Hp].
    destruct (workers s) eqn:Hws; [exact Hp|].
    destruct (worker_turn_threads s) as (H1 & H2 & H3 & H4 & H5).
    now apply (pooled_same_threads s).
  - unfold start. destruct (running s) eqn:Hr; [exact Hp|].
    destruct Hp as (Hseq & Hall & Hws). rewrite Hr in Hws.
    destruct (emplace_workers_fibers (workers_capacity s) (set_running true s))
      as (_ & _ & _ & _ & _ & Hrun & Hcap).
    unfold pooled. rewrite Hrun, Hcap. simpl. split; [|split].
    + now apply emplace_workers_pool.
    + apply emplace_workers_joinable. simpl. rewrite Hws. constructor.
    + rewrite emplace_workers_length. simpl. now rewrite Hws.
  - unfold stop. destruct (running s) eqn:Hr; [|exact Hp]. simpl.
    destruct Hp as (Hseq & Hall & _). unfold pooled. simpl.
    rewrite join_all_joinable by exact Hall. rewrite app_nil_r.
    split; [exact Hseq|]. split; [constructor | reflexivity].
Qed.



(** The test of [wait_all] holds only while no fiber has been spawned: once
    [spawn] has been called, no later call or worker turn makes it true
    again. *)
Theorem wait_all_done_only_before_spawn (cs : list call) (num_threads : nat) :
  wait_all_done (exec cs (new_Scheduler num_threads)) = true
  ↔ ∀ func, Spawn func ∉ cs.
Proof.
  rewrite <- (exec_no_fiber cs (new_Scheduler num_threads))
    by (apply placed_new || reflexivity).
  pose proof (placed_exec cs _ (placed_new num_threads)) as Hp.
  set (s := exec cs (new_Scheduler num_threads)) in *.
  destruct Hp as (Hw & Hn & Hseq & _). unfold wait_all_done.
  rewrite !andb_true_iff, !bool_decide_eq_true. split.
  - intros [[Hq Hr] _]. rewrite Hq, Hr in Hseq.
    destruct (next_id s) as [|[|k]]; [lia | reflexivity | discriminate Hseq].
  - intros H1. rewrite H1 in Hseq. simpl in Hseq.
    apply app_eq_nil in Hseq as [Hr Hq]. now rewrite Hq, Hr, Hw.
Qed.


(** A scheduler constructed with no thread, as when
    [hardware_concurrency()] returns 0, never runs anything: whatever is
    called, it has no worker, the running vector stays empty and every fiber
    spawned stays in the ready queue, READY. *)
Theorem no_worker_no_dispatch (cs : list call) :
  let s := exec cs (new_Scheduler 0) in
  workers s = [] ∧ running_fibers s = []
  ∧ ready_queue s = seq 1 (next_id s - 1)
  ∧ ∀ fid, fid ∈ ready_queue s → get_state fid s = Some READY.
Proof.
  intros s.
  assert (H : ∀ s0, (workers s0 = [] ∧ running_fibers s0 = []
                     ∧ workers_capacity s0 = 0%nat) →
                    let s1 := exec cs s0 in
                    workers s1 = [] ∧ running_fibers s1 = []
                    ∧ workers_capacity s1 = 0%nat).
  { induction cs as [|c cs IH]; intros s0 Hs0; [exact Hs0|].
    apply IH. destruct Hs0 as (Hw & Hr & Hc).
    destruct c as [func| | |]; simpl.
    - now repeat split.
    - unfold turn. rewrite Hw. now destruct (running s0).
    - unfold start. rewrite Hc. now destruct (running s0).
    - unfold stop. now destruct (running s0). }
  destruct (H (new_Scheduler 0)) as (Hw & Hr & _); [now repeat split|].
  fold s in Hw, Hr.
  pose proof (placed_exec cs _ (placed_new 0)) as Hp. fold s in Hp.
  destruct Hp as (_ & _ & Hseq & Hready & _). rewrite Hr in Hseq.
  now repeat split.
Qed.

(** No worker thread is lost: in every state reached from the constructor,
    the threads joined so far followed by the threads of the worker vector
    are exactly the threads started so far, all workers are joinable, a
    running scheduler has the number of workers the constructor reserved
    (also after a stop and a new start) and a stopped one has none. *)
Theorem worker_threads_accounted (cs : list call) (num_threads : nat) :
  let s := exec cs (new_Scheduler num_threads) in
  pooled s ∧ workers_capacity s = num_threads.
Proof.
  simpl.
  assert (H : ∀ s, pooled s ∧ workers_capacity s = num_threads →
                   pooled (exec cs s) ∧ workers_capacity (exec cs s) = num_threads).
  { induction cs as [|c cs IH]; intros s Hs; [exact Hs|].
    apply IH. destruct Hs as [Hp Hc]. split; [now apply pooled_apply|].
    destruct c as [func| | |]; simpl; [exact Hc | | |].
    - unfold turn. destruct (running s); [|exact Hc]. destruct (workers s); [exact Hc|].
      now destruct (worker_turn_threads s) as (_ & -> & _).
    - unfold start. destruct (running s); [exact Hc|].
      now destruct (emplace_workers_fibers (workers_capacity s) (set_running true s))
        as (_ & _ & _ & _ & _ & _ & ->).
    - unfold stop. now destruct (running s). }
  apply H. split; [|reflexivity].
  unfold pooled. simpl. repeat split. constructor.
Qed.

End SchedulerRuns.

(** * More on the garbage collector *)

Section GarbageCollectorMore.
Import GC GCUse.

Lemma wrap_range (z : Z) : 0 ≤ wrap z < 2 ^ 64.
Proof. unfold wrap. apply Z.mod_pos_bound. lia. Qed.

Lemma wrap_small (z : Z) : 0 ≤ z < 2 ^ 64 → wrap z = z.
Proof. unfold wrap. apply Z.mod_small. Qed.

(** The sweep by itself, whatever the marks: the registry that is left is
    the marked objects, and the total has gone down, in [size_t] arithmetic,
    by exactly the sum of the sizes of the unmarked objects; threshold and
    lock are untouched. *)
Theorem sweep_removes_exactly_unmarked (gc : GarbageCollector) :
  0 ≤ total_allocated gc < 2 ^ 64 →
  objects (sweep_unreachable_objects gc)
  = filter (λ kv, marked kv.2 = true) (objects gc)
  ∧ total_allocated (sweep_unreachable_objects gc)
    = wrap (total_allocated gc
            - sum_sizes (filter (λ kv, marked kv.2 = false) (objects gc)))
  ∧ memory_threshold (sweep_unreachable_objects gc) = memory_threshold gc
  ∧ gc_mutex (sweep_unreachable_objects gc) = gc_mutex gc.
Proof.
  intros Hrange. unfold sweep_unreachable_objects.
  cut (objects gc ⊆ objects gc →
       (∀ p, objects (map_fold sweep_entry gc (objects gc)) !! p =
             match objects gc !! p with
             | Some info => if marked info then Some info else None
             | None => objects gc !! p
             end)
       ∧ total_allocated (map_fold sweep_entry gc (objects gc))
         = wrap (total_allocated gc
                 - sum_sizes (filter (λ kv, marked kv.2 = false) (objects gc)))
       ∧ memory_threshold (map_fold sweep_entry gc (objects gc)) = memory_threshold gc
       ∧ gc_mutex (map_fold sweep_entry gc (objects gc)) = gc_mutex gc).
  { intros H. destruct H as (Hl & Ht & Hth & Hm); [reflexivity|].
    split; [|now repeat split].
    apply map_eq. intros p. rewrite Hl.
    destruct (objects gc !! p) as [info|] eqn:Hp.
    - destruct (marked info) eqn:Hmk; symmetry.
      + apply map_lookup_filter_Some. now split.
      + apply map_lookup_filter_None. right. intros x Hx. simpl. congruence.
    - symmetry. apply map_lookup_filter_None. now left. }
  apply (map_fold_weak_ind
    (λ r m, m ⊆ objects gc →
       (∀ p, objects r !! p =
             match m !! p with
             | Some info => if marked info then Some info else None
             | None => objects gc !! p
             end)
       ∧ total_allocated r
         = wrap (total_allocated gc - sum_sizes (filter (λ kv, marked kv.2 = false) m))
       ∧ memory_threshold r = memory_threshold gc
       ∧ gc_mutex r = gc_mutex gc)).
  - intros _. split; [intros p; now rewrite lookup_empty|].
    split; [|now split].
    rewrite map_filter_empty. unfold sum_sizes. rewrite map_fold_empty.
    rewrite Z.sub_0_r. symmetry. now apply wrap_small.
  - intros i info m r Hnone IH Hsub.
    destruct IH as (Hl & Ht & Hth & Hm).
    { etrans; [|exact Hsub]. now apply insert_subseteq. }
    unfold sweep_entry. destruct (marked info) eqn:Hmk; simpl.
    + split; [|split; [|now split]].
      * intros p. destruct (decide (i = p)) as [<-|Hne].
        -- rewrite lookup_insert_eq, Hmk, Hl, Hnone.
           eapply lookup_weaken; [|exact Hsub]. apply lookup_insert_eq.
        -- rewrite lookup_insert_ne by exact Hne. apply Hl.
      * rewrite map_filter_insert_False by (simpl; congruence).
        now rewrite delete_id.
    + split; [|split; [|now split]].
      * intros p. destruct (decide (i = p)) as [<-|Hne].
        -- now rewrite lookup_delete_eq, lookup_insert_eq, Hmk.
        -- rewrite lookup_delete_ne, lookup_insert_ne by exact Hne. apply Hl.
      * rewrite map_filter_insert_True by exact Hmk.
        rewrite sum_sizes_insert by (apply map_lookup_filter_None; now left).
        rewrite Ht, wrap_sub_l. f_equal. lia.
Qed.

Lemma sweep_removes_exactly_unmarked_witness :
  let gc := {| objects := {[ 4096 := {| ptr := 4096; size := 100; marked := true |};
                             8192 := {| ptr := 8192; size := 200; marked := false |} ]};
               memory_threshold := 1024; total_allocated := 300;
               gc_mutex := true |} in
  objects (sweep_unreachable_objects gc)
  = filter (λ kv, marked kv.2 = true) (objects gc)
  ∧ total_allocated (sweep_unreachable_objects gc)
    = wrap (total_allocated gc
            - sum_sizes (filter (λ kv, marked kv.2 = false) (objects gc)))
  ∧ memory_threshold (sweep_unreachable_objects gc) = memory_threshold gc
  ∧ gc_mutex (sweep_unreachable_objects gc) = gc_mutex gc.
Proof.
  apply (sweep_removes_exactly_unmarked
    {| objects := {[ 4096 := {| ptr := 4096; size := 100; marked := true |};
                     8192 := {| ptr := 8192; size := 200; marked := false |} ]};
       memory_threshold := 1024; total_allocated := 300; gc_mutex := true |}).
  simpl. lia.
Defined.

(** Registering an object and unregistering it again is a round trip: when
    the identity was free and the threshold is not crossed, the collector is
    back in the state it was in, registry and total. *)
Theorem register_unregister_round_trip (gc : GarbageCollector) (p sz : Z) :
  gc_mutex gc = false → objects gc !! p = None →
  0 ≤ total_allocated gc < 2 ^ 64 →
  wrap (total_allocated gc + sz) ≤ memory_threshold gc →
  and_then (register_object p sz gc) (unregister_object p) = Returns tt gc.
Proof.
  intros Hfree Hnone Hrange Hle.
  rewrite register_object_returns by assumption. simpl.
  unfold unregister_object, lock_guard. simpl. rewrite lookup_insert_eq. simpl.
  rewrite delete_insert_id by exact Hnone.
  rewrite wrap_sub_l, Z.add_simpl_r, wrap_small by exact Hrange.
  destruct gc. simpl in *. now subst.
Qed.

Lemma register_unregister_round_trip_witness :
  and_then (register_object 8192 200 one_object) (unregister_object 8192)
  = Returns tt one_object.
Proof.
  apply (register_unregister_round_trip one_object 8192 200);
    [reflexivity | reflexivity | simpl; lia | vm_compute; discriminate].
Defined.

(** [collect] twice is [collect] once: a second pass finds every mark set
    and changes nothing, and both hang alike on a lock already held. *)
Theorem collect_twice (gc : GarbageCollector) :
  and_then (collect gc) collect = collect gc.
Proof.
  unfold collect, lock_guard. destruct (gc_mutex gc) eqn:Hm; [reflexivity|].
  simpl. rewrite !mark_and_sweep_marks. simpl. do 2 f_equal.
  rewrite <- map_fmap_compose. reflexivity.
Qed.

Lemma returns_releases {A : Type} (body : GarbageCollector → outcome A)
    (gc gc' : GarbageCollector) (a : A) :
  lock_guard body gc = Returns a gc' → gc_mutex gc = false ∧ gc_mutex gc' = false.
Proof.
  unfold lock_guard. destruct (gc_mutex gc); [discriminate|].
  destruct (body _); [|discriminate..]. now intros [= _ <-].
Qed.

(** The invariants of a collector used as intended: in every state reached
    from a new collector by calls that return, with no identity registered
    while it is registered, the total is the sum of the registered sizes (in
    [size_t] arithmetic), it is within the range of [size_t], the lock is
    free, and every entry of the registry is filed under its own pointer. *)
Theorem reach_invariants (gc : GarbageCollector) :
  reach gc →
  tracked gc ∧ 0 ≤ total_allocated gc < 2 ^ 64 ∧ gc_mutex gc = false
  ∧ map_Forall (λ p info, ptr info = p) (objects gc).
Proof.
  induction 1 as [|gc gc' p sz _ IH Hsz Hnone Hreg|gc gc' p _ IH Hun
                  |gc gc' _ IH Hcol|gc threshold _ IH].
  - split; [vm_compute; reflexivity|]. split; [simpl; lia|].
    split; [reflexivity | apply map_Forall_empty].
  - destruct IH as (Htr & Hr & Hm & Hptr).
    split; [now apply (register_fresh_tracked gc gc' p sz)|].
    split; [|split; [apply (returns_releases _ _ _ _ Hreg)|]].
    + unfold register_object, lock_guard in Hreg. rewrite Hm in Hreg. simpl in Hreg.
      destruct (_ >? _); [discriminate|]. injection Hreg as <-. apply wrap_range.
    + unfold register_object, lock_guard in Hreg. rewrite Hm in Hreg. simpl in Hreg.
      destruct (_ >? _); [discriminate|]. injection Hreg as <-. simpl.
      apply map_Forall_insert_2; [reflexivity | exact Hptr].
  - destruct IH as (Htr & Hr & Hm & Hptr).
    split; [now apply (unregister_tracked gc gc' p)|].
    split; [|split; [apply (returns_releases _ _ _ _ Hun)|]].
    + unfold unregister_object, lock_guard in Hun. rewrite Hm in Hun. simpl in Hun.
      destruct (objects gc !! p); injection Hun as <-; simpl;
        [apply wrap_range | exact Hr].
    + unfold unregister_object, lock_guard in Hun. rewrite Hm in Hun. simpl in Hun.
      destruct (objects gc !! p); injection Hun as <-; simpl; [|exact Hptr].
      now apply map_Forall_delete.
  - destruct IH as (Htr & Hr & Hm & Hptr).
    split; [now apply (collect_tracked gc gc')|].
    unfold collect, lock_guard in Hcol. rewrite Hm in Hcol.
    injection Hcol as <-. rewrite mark_and_sweep_marks. simpl.
    split; [exact Hr|]. split; [reflexivity|].
    intros q info. rewrite lookup_fmap.
    destruct (objects gc !! q) as [i0|] eqn:Hq; [|discriminate].
    simpl. intros [= <-]. simpl. now apply (Hptr q i0).
  - exact IH.
Qed.

Lemma reach_invariants_witness :
  tracked one_object ∧ 0 ≤ total_allocated one_object < 2 ^ 64
  ∧ gc_mutex one_object = false
  ∧ map_Forall (λ p info, ptr info = p) (objects one_object).
Proof.
  apply (reach_invariants one_object).
  apply (reach_register new_GarbageCollector one_object 4096 100);
    [apply reach_new | lia | reflexivity | reflexivity].
Defined.

End GarbageCollectorMore.

(** * The runtime and the tables of named Values *)

Section RuntimeFacts.
Import Sched Rt.

Lemma last_write_lookup (writes : list (string * Value)) (m : gmap string Value)
    (name : string) :
  foldl (λ acc w, <[w.1 := w.2]> acc) m writes !! name
  = match last_write name writes with
    | Some v => Some v
    | None => m !! name
    end.
Proof.
  revert m. induction writes as [|[n v] rest IH]; intros m; [reflexivity|].
  simpl. rewrite IH. destruct (last_write name rest); [reflexivity|].
  destruct (decide (n = name)) as [->|Hne].
  - now rewrite lookup_insert_eq.
  - now rewrite lookup_insert_ne.
Qed.

Lemma set_globals_globals (writes : list (string * Value)) (rt : Runtime) :
  globals (set_globals writes rt) = foldl (λ acc w, <[w.1 := w.2]> acc) (globals rt) writes
  ∧ scheduler (set_globals writes rt) = scheduler rt
  ∧ gc (set_globals writes rt) = gc rt.
Proof.
  revert rt. induction writes as [|w rest IH]; intros rt; [now repeat split|].
  unfold set_globals in *. simpl. destruct (IH (set_global w.1 w.2 rt)) as (-> & -> & ->).
  now repeat split.
Qed.

(** The table of globals is last-writer-wins: after any writes,
    [get_global(name)] is the Value of the last write to [name], or what the
    table held before if [name] was not written, which is no value in a new
    runtime; the writes touch neither the scheduler nor the collector. *)
Theorem get_global_last_write (writes : list (string * Value)) (rt : Runtime)
    (name : string) (n : nat) :
  get_global name (set_globals writes rt)
  = match last_write name writes with
    | Some v => Some v
    | None => get_global name rt
    end
  ∧ get_global name (new_Runtime n) = None
  ∧ scheduler (set_globals writes rt) = scheduler rt
  ∧ gc (set_globals writes rt) = gc rt.
Proof.
  destruct (set_globals_globals writes rt) as (Hg & Hs & Hc).
  split; [|now repeat split].
  unfold get_global. rewrite Hg. apply last_write_lookup.
Qed.

(** The locals of a fiber behave the same way: [get_local(key)] is the Value
    of the last [set_local] of that key, and no value for a key never set. *)
Theorem get_local_last_write (writes : list (string * Value))
    (locals : gmap string Value) (key : string) :
  FiberCalls.get_local key (FiberCalls.set_locals writes locals)
  = match last_write key writes with
    | Some v => Some v
    | None => FiberCalls.get_local key locals
    end.
Proof. apply last_write_lookup. Qed.

Lemma emplace_workers_next_tid (n : nat) (s : Scheduler) :
  next_tid (Nat.iter n emplace_worker s) = (next_tid s + n)%nat.
Proof. induction n as [|n IH]; simpl; [lia | rewrite IH; lia]. Qed.

Lemma cycle_pool (s : Scheduler) :
  SchedRun.pooled s → running s = false →
  SchedRun.pooled (stop (start s)) ∧ running (stop (start s)) = false
  ∧ workers_capacity (stop (start s)) = workers_capacity s
  ∧ next_tid (stop (start s)) = (next_tid s + workers_capacity s)%nat.
Proof.
  intros Hp Hr.
  split; [apply (pooled_apply SchedRun.Stop), (pooled_apply SchedRun.Start), Hp|].
  split; [apply running_stop|].
  assert (Hrun : running (start s) = true).
  { unfold start. rewrite Hr.
    now destruct (emplace_workers_fibers (workers_capacity s) (set_running true s))
      as (_ & _ & _ & _ & _ & -> & _). }
  unfold stop. rewrite Hrun. simpl. unfold start. rewrite Hr.
  rewrite emplace_workers_next_tid. simpl.
  now destruct (emplace_workers_fibers (workers_capacity s) (set_running true s))
    as (_ & _ & _ & _ & _ & _ & ->).
Qed.

(** A runtime can be initialized and shut down over and over: after [k]
    rounds of [initialize] and [shutdown] on a new runtime the scheduler is
    stopped with no worker left, the [k * n] threads started so far have all
    been joined, and one more [initialize] starts a full pool of [n] workers
    again; [initialize] on a running runtime and [shutdown] on a stopped one
    change nothing. *)
Theorem runtime_restarts (n k : nat) :
  let rt := Nat.iter k (λ r, shutdown (initialize r)) (new_Runtime n) in
  running (scheduler rt) = false
  ∧ workers (scheduler rt) = []
  ∧ joined (scheduler rt) = seq 0 (k * n)
  ∧ running (scheduler (initialize rt)) = true
  ∧ length (workers (scheduler (initialize rt))) = n
  ∧ initialize (initialize rt) = initialize rt
  ∧ shutdown rt = rt.
Proof.
  simpl.
  assert (H : let s := scheduler (Nat.iter k (λ r, shutdown (initialize r)) (new_Runtime n)) in
              SchedRun.pooled s ∧ running s = false ∧ workers_capacity s = n
              ∧ next_tid s = (k * n)%nat).
  { induction k as [|k IH]; simpl.
    - repeat split. constructor.
    - simpl in IH. destruct IH as (Hp & Hr & Hc & Ht).
      destruct (cycle_pool _ Hp Hr) as (Hp' & Hr' & Hc' & Ht').
      split; [exact Hp'|]. split; [exact Hr'|]. split; [congruence|].
      rewrite Ht', Hc, Ht. lia. }
  set (rt := Nat.iter k _ _) in *. simpl in H.
  destruct H as (Hp & Hr & Hc & Ht).
  pose proof Hp as (Hseq & _ & Hws). rewrite Hr in Hws.
  rewrite Hws, app_nil_r, Ht in Hseq.
  pose proof (pooled_apply SchedRun.Start _ Hp) as (_ & _ & Hlen). simpl in Hlen.
  assert (Hrun : running (start (scheduler rt)) = true).
  { unfold start. rewrite Hr.
    now destruct (emplace_workers_fibers (workers_capacity (scheduler rt))
                    (set_running true (scheduler rt)))
      as (_ & _ & _ & _ & _ & -> & _). }
  rewrite Hrun in Hlen.
  split; [exact Hr|]. split; [exact Hws|]. split; [exact Hseq|].
  split; [exact Hrun|]. split.
  { simpl. rewrite Hlen. unfold start. rewrite Hr.
    now destruct (emplace_workers_fibers (workers_capacity (scheduler rt))
                    (set_running true (scheduler rt)))
      as (_ & _ & _ & _ & _ & _ & ->). }
  split.
  - unfold initialize, with_scheduler. simpl. f_equal.
    unfold start at 1. now rewrite Hrun.
  - unfold shutdown, with_scheduler. rewrite (stop_not_running _ Hr).
    now destruct rt.
Qed.

End RuntimeFacts.
